(** * acdb: a key-value store with pluggable drivers

    A shallow embedding of package [acdb] (github.com/mohanson/acdb):
    the [Driver] interface, its four implementations ([MemDriver],
    [DocDriver], [LruDriver], [MapDriver]) and the [Emerge] client that
    guards a driver with a mutex.  The command in cmd/acdb, an HTTP front
    end that calls [Get], [Set] and [Del] of one client, is not embedded.

    Go methods mutate their receiver; here every method takes the state of
    the receiver and returns the new state next to its Go results.  A Go
    result [([]byte, error)] is a pair [bytes * option error] ([None] is a
    nil error, the nil slice is the empty list), a Go result [error] is an
    [option error]. *)

From Stdlib Require Import ZArith Lia.
From stdpp Require Import base option list sorting strings gmap.

Open Scope Z_scope.

(** ** Values and errors *)

(** [[]byte] *)
Abbreviation bytes := (list Byte.byte).

#[export] Instance byte_eq_dec : EqDecision Byte.byte := Byte.byte_eq_dec.

(** The error numbers the file-system calls of package [os] report. *)
Inductive Errno := ENOENT | EACCES | EISDIR | ENOTDIR | ENOSPC | EIO.

(** Go [error] values that reach this package: the sentinel
    [os.ErrNotExist] the drivers return themselves, the [*fs.PathError] of
    the calls of package [os], the errors of [encoding/json], and the plain
    [errors.New] of any other driver. *)
Inductive error :=
| ErrNotExist
| PathError (op path : string) (errno : Errno)
| JsonError (msg : string)
| ErrorString (msg : string).

(** [errors.Is(err, os.ErrNotExist)]: the inspectable "not found" kind. *)
Definition IsNotExist (e : error) : bool :=
  match e with
  | ErrNotExist => true
  | PathError _ _ ENOENT => true
  | _ => false
  end.

(** ** The Driver interface

    [type Driver interface { Get; Set; Del }] *)
Class Driver (D : Type) := {
  Driver_Get : string -> D -> D * (bytes * option error);
  Driver_Set : string -> bytes -> D -> D * option error;
  Driver_Del : string -> D -> D * option error;
}.

(** ** MemDriver *)

Record MemDriver := { mem_data : gmap string bytes }.

Definition NewMemDriver : MemDriver := {| mem_data := ∅ |}.

Definition MemDriver_Get (k : string) (d : MemDriver)
  : MemDriver * (bytes * option error) :=
  match mem_data d !! k with
  | Some v => (d, (v, None))
  | None => (d, ([], Some ErrNotExist))
  end.

Definition MemDriver_Set (k : string) (v : bytes) (d : MemDriver)
  : MemDriver * option error :=
  ({| mem_data := <[k := v]> (mem_data d) |}, None).

Definition MemDriver_Del (k : string) (d : MemDriver)
  : MemDriver * option error :=
  ({| mem_data := delete k (mem_data d) |}, None).

#[export] Instance MemDriver_Driver : Driver MemDriver := {
  Driver_Get := MemDriver_Get;
  Driver_Set := MemDriver_Set;
  Driver_Del := MemDriver_Del;
}.

(** ** Packages [os] and [path]

    [DocDriver] reaches the file system only through [os.MkdirAll],
    [os.ReadFile], [os.WriteFile] and [os.Remove], and builds file names
    with [path.Join].  Those packages are imported, so they are an
    interface here: [fs] is the state of the file system, and every call
    may change it and may fail.  Statements about [DocDriver] hold for
    every implementation of the interface. *)
Class OS (fs : Type) := {
  path_Join : string -> string -> string;
  os_MkdirAll : string -> fs -> fs * option error;
  os_ReadFile : string -> fs -> fs * (bytes * option error);
  os_WriteFile : string -> bytes -> fs -> fs * option error;
  os_Remove : string -> fs -> fs * option error;
}.

(** ** DocDriver

    The Go struct holds [root] only; [disk] is the file system the driver
    works on, carried along as state. *)
Record DocDriver (fs : Type) := mkDocDriver { root : string; disk : fs }.
Arguments mkDocDriver {fs} _ _.
Arguments root {fs} _.
Arguments disk {fs} _.

Section DocDriver.
Context {fs : Type} `{!OS fs}.

(** [doa.Try1] panics on an error: [None] is the panic. *)
Definition NewDocDriver (r : string) (w : fs) : option (DocDriver fs) :=
  match os_MkdirAll r w with
  | (w', None) => Some (mkDocDriver r w')
  | (_, Some _) => None
  end.

Definition DocDriver_Get (k : string) (d : DocDriver fs)
  : DocDriver fs * (bytes * option error) :=
  let '(w', r) := os_ReadFile (path_Join (root d) k) (disk d) in
  (mkDocDriver (root d) w', r).

Definition DocDriver_Set (k : string) (v : bytes) (d : DocDriver fs)
  : DocDriver fs * option error :=
  let '(w', r) := os_WriteFile (path_Join (root d) k) v (disk d) in
  (mkDocDriver (root d) w', r).

Definition DocDriver_Del (k : string) (d : DocDriver fs)
  : DocDriver fs * option error :=
  let '(w', r) := os_Remove (path_Join (root d) k) (disk d) in
  (mkDocDriver (root d) w', r).

#[export] Instance DocDriver_Driver : Driver (DocDriver fs) := {
  Driver_Get := DocDriver_Get;
  Driver_Set := DocDriver_Set;
  Driver_Del := DocDriver_Del;
}.
End DocDriver.

(** ** Package [lru] *)

(** Modelled from the spec: the cache of the imported package
    github.com/mohanson/lru ([lru.Cache], [lru.New], and the methods [Get],
    [Set], [Del]), which is not part of this repository's sources.  After
    section 4.1: a mapping from key to value with a total order of the keys
    by most recent touch, kept here as one list, most recently used entry
    first.  [lru.New] yields one result and is called with any [int], so it
    is total.  The cache stores [interface{}] values; [LruDriver] is its
    only user and stores [[]byte] only, so the values are [bytes]. *)
Record lru_Cache := mkCache {
  lru_Size : Z;
  lru_List : list (string * bytes);
}.

Definition lru_New (size : Z) : lru_Cache := mkCache size [].

Fixpoint lru_find (k : string) (l : list (string * bytes)) : option bytes :=
  match l with
  | [] => None
  | (k', v) :: l' => if decide (k = k') then Some v else lru_find k l'
  end.

Definition lru_drop (k : string) (l : list (string * bytes))
  : list (string * bytes) :=
  filter (λ e, e.1 ≠ k) l.

(** "[Get] on a present key refreshes it to most-recently-used and returns
    the value with found=true; on absent key returns found=false". *)
Definition lru_Get (k : string) (c : lru_Cache) : lru_Cache * option bytes :=
  match lru_find k (lru_List c) with
  | Some v => (mkCache (lru_Size c) ((k, v) :: lru_drop k (lru_List c)), Some v)
  | None => (c, None)
  end.

(** "[Set] on a present key updates the value and refreshes recency
    without changing the resident count.  [Set] on an absent key inserts a
    new entry as most-recently-used; if this pushes the resident count above
    Capacity, evict the single least-recently-used entry". *)
Definition lru_Set (k : string) (v : bytes) (c : lru_Cache) : lru_Cache :=
  match lru_find k (lru_List c) with
  | Some _ => mkCache (lru_Size c) ((k, v) :: lru_drop k (lru_List c))
  | None =>
      let l := (k, v) :: lru_List c in
      if lru_Size c <? Z.of_nat (length l)
      then mkCache (lru_Size c) (removelast l)
      else mkCache (lru_Size c) l
  end.

(** "[Delete] removes the entry and its recency record if present". *)
Definition lru_Del (k : string) (c : lru_Cache) : lru_Cache :=
  mkCache (lru_Size c) (lru_drop k (lru_List c)).

(** ** LruDriver *)

Record LruDriver := { lru_data : lru_Cache }.

Definition NewLruDriver (size : Z) : LruDriver :=
  {| lru_data := lru_New size |}.

Definition LruDriver_Get (k : string) (d : LruDriver)
  : LruDriver * (bytes * option error) :=
  match lru_Get k (lru_data d) with
  | (c, Some v) => ({| lru_data := c |}, (v, None))
  | (c, None) => ({| lru_data := c |}, ([], Some ErrNotExist))
  end.

Definition LruDriver_Set (k : string) (v : bytes) (d : LruDriver)
  : LruDriver * option error :=
  ({| lru_data := lru_Set k v (lru_data d) |}, None).

Definition LruDriver_Del (k : string) (d : LruDriver)
  : LruDriver * option error :=
  ({| lru_data := lru_Del k (lru_data d) |}, None).

#[export] Instance LruDriver_Driver : Driver LruDriver := {
  Driver_Get := LruDriver_Get;
  Driver_Set := LruDriver_Set;
  Driver_Del := LruDriver_Del;
}.

(** ** MapDriver

    [MapDriver] calls its two fields through the methods of [Driver] only,
    so the struct and its methods are written once for any pair of drivers;
    the source fixes the fields to [*DocDriver] and [*LruDriver]
    ([NewMapDriver]). *)
Record MapDriver (Doc Lru : Type) := mkMapDriver { doc : Doc; lru : Lru }.
Arguments mkMapDriver {Doc Lru} _ _.
Arguments doc {Doc Lru} _.
Arguments lru {Doc Lru} _.

Section MapDriver.
Context {Doc Lru : Type} `{!Driver Doc, !Driver Lru}.

Definition MapDriver_Get (k : string) (d : MapDriver Doc Lru)
  : MapDriver Doc Lru * (bytes * option error) :=
  let '(l1, (buf, err)) := Driver_Get k (lru d) in
  match err with
  | None => (mkMapDriver (doc d) l1, (buf, None))
  | Some _ =>
      let '(d1, (buf, err)) := Driver_Get k (doc d) in
      match err with
      | Some e => (mkMapDriver d1 l1, ([], Some e))
      | None =>
          let '(l2, err) := Driver_Set k buf l1 in
          (mkMapDriver d1 l2, (buf, err))
      end
  end.

Definition MapDriver_Set (k : string) (v : bytes) (d : MapDriver Doc Lru)
  : MapDriver Doc Lru * option error :=
  let '(l1, err) := Driver_Set k v (lru d) in
  match err with
  | Some e => (mkMapDriver (doc d) l1, Some e)
  | None =>
      let '(d1, err) := Driver_Set k v (doc d) in
      match err with
      | Some e => (mkMapDriver d1 l1, Some e)
      | None => (mkMapDriver d1 l1, None)
      end
  end.

Definition MapDriver_Del (k : string) (d : MapDriver Doc Lru)
  : MapDriver Doc Lru * option error :=
  let '(l1, err) := Driver_Del k (lru d) in
  match err with
  | Some e => (mkMapDriver (doc d) l1, Some e)
  | None =>
      let '(d1, err) := Driver_Del k (doc d) in
      match err with
      | Some e => (mkMapDriver d1 l1, Some e)
      | None => (mkMapDriver d1 l1, None)
      end
  end.

#[export] Instance MapDriver_Driver : Driver (MapDriver Doc Lru) := {
  Driver_Get := MapDriver_Get;
  Driver_Set := MapDriver_Set;
  Driver_Del := MapDriver_Del;
}.
End MapDriver.

(** [NewMapDriver]: a [DocDriver] on [root] and a [LruDriver] of size 1024;
    [None] is the panic of [NewDocDriver]. *)
Definition NewMapDriver {fs : Type} `{!OS fs} (r : string) (w : fs)
  : option (MapDriver (DocDriver fs) LruDriver) :=
  match NewDocDriver r w with
  | Some d => Some (mkMapDriver d (NewLruDriver 1024))
  | None => None
  end.

(** ** Package [encoding/json]

    [json.Marshal] and [json.Unmarshal] are imported: an interface over the
    type [V] of the Go values handed to them.  [json_Unmarshal b v] gets the
    value [v] its pointer argument points to and returns the value left
    there. *)
Class Json (V : Type) := {
  json_Marshal : V -> bytes * option error;
  json_Unmarshal : bytes -> V -> V * option error;
}.

(** ** [sync.Mutex]

    One thread of control is modelled: [Lock] on a locked mutex never
    returns and [Unlock] on an unlocked one is a fatal error, both [None]. *)
Record Mutex := { locked : bool }.

Definition Mutex_Lock (m : Mutex) : option Mutex :=
  if locked m then None else Some {| locked := true |}.

Definition Mutex_Unlock (m : Mutex) : option Mutex :=
  if locked m then Some {| locked := false |} else None.

(** ** Emerge *)

Record Emerge (D : Type) := mkEmerge { driver : D; m : Mutex }.
Arguments mkEmerge {D} _ _.
Arguments driver {D} _.
Arguments m {D} _.

Section Emerge.
Context {D : Type} `{!Driver D}.

Definition NewEmerge (d : D) : Emerge D := mkEmerge d {| locked := false |}.

(** [e.m.Lock(); defer e.m.Unlock(); return e.driver.Get(k)]: the
    deferred [Unlock] runs after the result is computed. *)
Definition Emerge_Get (k : string) (e : Emerge D)
  : option (Emerge D * (bytes * option error)) :=
  m1 ← Mutex_Lock (m e);
  let '(d1, r) := Driver_Get k (driver e) in
  m2 ← Mutex_Unlock m1;
  Some (mkEmerge d1 m2, r).

Definition Emerge_Set (k : string) (v : bytes) (e : Emerge D)
  : option (Emerge D * option error) :=
  m1 ← Mutex_Lock (m e);
  let '(d1, r) := Driver_Set k v (driver e) in
  m2 ← Mutex_Unlock m1;
  Some (mkEmerge d1 m2, r).

Definition Emerge_Del (k : string) (e : Emerge D)
  : option (Emerge D * option error) :=
  m1 ← Mutex_Lock (m e);
  let '(d1, r) := Driver_Del k (driver e) in
  m2 ← Mutex_Unlock m1;
  Some (mkEmerge d1 m2, r).

Context {V : Type} `{!Json V}.

(** The results are the client, the value behind the pointer [v] and the
    error. *)
Definition Emerge_GetDecode (k : string) (v : V) (e : Emerge D)
  : option (Emerge D * V * option error) :=
  '(e1, (b, err)) ← Emerge_Get k e;
  match err with
  | Some x => Some (e1, v, Some x)
  | None => let '(v1, r) := json_Unmarshal b v in Some (e1, v1, r)
  end.

Definition Emerge_SetEncode (k : string) (v : V) (e : Emerge D)
  : option (Emerge D * option error) :=
  let '(b, err) := json_Marshal v in
  match err with
  | Some x => Some (e, Some x)
  | None => Emerge_Set k b e
  end.
End Emerge.

Definition Mem : Emerge MemDriver := NewEmerge NewMemDriver.

Definition Doc {fs : Type} `{!OS fs} (r : string) (w : fs)
  : option (Emerge (DocDriver fs)) :=
  NewEmerge <$> NewDocDriver r w.

Definition Lru (size : Z) : Emerge LruDriver := NewEmerge (NewLruDriver size).

Definition Map {fs : Type} `{!OS fs} (r : string) (w : fs)
  : option (Emerge (MapDriver (DocDriver fs) LruDriver)) :=
  NewEmerge <$> NewMapDriver r w.

(** ** Histories of calls *)

Inductive Op :=
| OpGet (k : string)
| OpSet (k : string) (v : bytes)
| OpDel (k : string).

Definition Driver_step {D : Type} `{!Driver D} (d : D) (o : Op) : D :=
  match o with
  | OpGet k => (Driver_Get k d).1
  | OpSet k v => (Driver_Set k v d).1
  | OpDel k => (Driver_Del k d).1
  end.

Definition Driver_run {D : Type} `{!Driver D} (ops : list Op) (d : D) : D :=
  foldl Driver_step d ops.

(** ** Implementations of the imported interfaces, to run the code on *)

(** Modelled from the spec: a file system behind the calls of package [os],
    which is imported.  After section 4.2: one object per name; reading or
    removing a name that does not exist fails with a not-found error,
    writing creates or fully overwrites; and, of the I/O failures of
    section 7, the permission one: nothing can be written or removed when
    the directory is read-only. *)
Record Disk := mkDisk { files : gmap string bytes; writable : bool }.

Definition Disk_ReadFile (p : string) (w : Disk) : Disk * (bytes * option error) :=
  match files w !! p with
  | Some v => (w, (v, None))
  | None => (w, ([], Some (PathError "open" p ENOENT)))
  end.

Definition Disk_WriteFile (p : string) (v : bytes) (w : Disk) : Disk * option error :=
  if writable w
  then (mkDisk (<[p := v]> (files w)) true, None)
  else (w, Some (PathError "open" p EACCES)).

Definition Disk_Remove (p : string) (w : Disk) : Disk * option error :=
  match files w !! p with
  | None => (w, Some (PathError "remove" p ENOENT))
  | Some _ =>
      if writable w
      then (mkDisk (delete p (files w)) true, None)
      else (w, Some (PathError "remove" p EACCES))
  end.

#[export] Instance Disk_OS : OS Disk := {
  path_Join r k := r +:+ "/" +:+ k;
  os_MkdirAll _ w := (w, None);
  os_ReadFile := Disk_ReadFile;
  os_WriteFile := Disk_WriteFile;
  os_Remove := Disk_Remove;
}.

(** A few Go values and their JSON text: [nil], the booleans, and a
    function value, which [json.Marshal] refuses. *)
Inductive GoValue := GoNil | GoBool (b : bool) | GoFunc.

Definition GoValue_Marshal (v : GoValue) : bytes * option error :=
  match v with
  | GoNil => (String.list_byte_of_string "null", None)
  | GoBool true => (String.list_byte_of_string "true", None)
  | GoBool false => (String.list_byte_of_string "false", None)
  | GoFunc => ([], Some (JsonError "json: unsupported type: func()"))
  end.

Definition GoValue_Unmarshal (b : bytes) (v : GoValue) : GoValue * option error :=
  if decide (b = String.list_byte_of_string "null") then (GoNil, None)
  else if decide (b = String.list_byte_of_string "true") then (GoBool true, None)
  else if decide (b = String.list_byte_of_string "false") then (GoBool false, None)
  else (v, Some (JsonError "invalid character")).

#[export] Instance GoValue_Json : Json GoValue := {
  json_Marshal := GoValue_Marshal;
  json_Unmarshal := GoValue_Unmarshal;
}.

(** A driver that holds nothing and whose [Set] fails: what [MapDriver]
    does when its cache reports an error. *)
Record NoDriver := mkNoDriver { }.

#[export] Instance NoDriver_Driver : Driver NoDriver := {
  Driver_Get _ d := (d, ([], Some ErrNotExist));
  Driver_Set _ _ d := (d, Some (ErrorString "no space"));
  Driver_Del _ d := (d, None);
}.

(** ** Recency of a key in a history *)

(** Whether a call touches the key [k]: [Get] and [Set] of [k] do.  A
    [Get] that misses counts too, which changes nothing for the keys in the
    cache: a key resident later was [Set] after that miss. *)
Definition touches (k : string) (o : Op) : bool :=
  match o with
  | OpGet k' | OpSet k' _ => bool_decide (k' = k)
  | OpDel _ => false
  end.

(** The number of calls made after the last touch of [k], in a history
    given with its latest call first; [None] when [k] was never touched. *)
Fixpoint since_touch (k : string) (rops : list Op) : option nat :=
  match rops with
  | [] => None
  | o :: r => if touches k o then Some 0%nat else S <$> since_touch k r
  end.

(** The same for a history in the order of the calls: the larger, the
    longer ago [k] was touched. *)
Definition idle (k : string) (ops : list Op) : option nat :=
  since_touch k (rev ops).

(** The entries of [l] were all touched, each more recently than the
    entries after it. *)
Fixpoint by_recency (rops : list Op) (l : list (string * bytes)) : Prop :=
  match l with
  | [] => True
  | e :: l' =>
      (∃ a, since_touch e.1 rops = Some a ∧
            Forall (λ e', ∃ b, since_touch e'.1 rops = Some b ∧ (a < b)%nat) l') ∧
      by_recency rops l'
  end.

(** ** Stores to run the code on *)

(** An empty directory, writable or read-only. *)
Definition disk_rw : Disk := mkDisk ∅ true.
Definition disk_ro : Disk := mkDisk ∅ false.

(** What [NewMapDriver "db"] returns on them. *)
Definition store_rw : MapDriver (DocDriver Disk) LruDriver :=
  mkMapDriver (mkDocDriver "db" disk_rw) (NewLruDriver 1024).
Definition store_ro : MapDriver (DocDriver Disk) LruDriver :=
  mkMapDriver (mkDocDriver "db" disk_ro) (NewLruDriver 1024).

(** The file "db/k" on disk and nothing cached yet. *)
Definition store_cold : MapDriver (DocDriver Disk) LruDriver :=
  mkMapDriver
    (mkDocDriver "db" (mkDisk {[ "db/k" := String.list_byte_of_string "v" ]} true))
    (NewLruDriver 1024).

(** The same file behind a cache whose writes fail. *)
Definition store_nocache : MapDriver (DocDriver Disk) NoDriver :=
  mkMapDriver
    (mkDocDriver "db" (mkDisk {[ "db/k" := String.list_byte_of_string "v" ]} true))
    mkNoDriver.

(** ** Results of a history *)

(** One call with its Go results; [Set] and [Del] have no bytes to
    return. *)
Definition Driver_call {D : Type} `{!Driver D} (d : D) (o : Op)
  : D * (bytes * option error) :=
  match o with
  | OpGet k => Driver_Get k d
  | OpSet k v => let '(d1, err) := Driver_Set k v d in (d1, ([], err))
  | OpDel k => let '(d1, err) := Driver_Del k d in (d1, ([], err))
  end.

(** What the caller sees of a history: the results of its calls. *)
Fixpoint Driver_trace {D : Type} `{!Driver D} (ops : list Op) (d : D)
  : list (bytes * option error) :=
  match ops with
  | [] => []
  | o :: ops' => let '(d1, r) := Driver_call d o in r :: Driver_trace ops' d1
  end.

(** The value a history leaves under [k]: that of the last [Set] of [k],
    unless a [Del] of [k] came after it. *)
Definition written (k : string) (old : option bytes) (o : Op) : option bytes :=
  match o with
  | OpGet _ => old
  | OpSet k' v => if decide (k' = k) then Some v else old
  | OpDel k' => if decide (k' = k) then None else old
  end.

Definition last_write (k : string) (ops : list Op) : option bytes :=
  foldl (written k) None ops.

(** ** The calls of a client, one after the other *)

Definition Emerge_call {D : Type} `{!Driver D} (e : Emerge D) (o : Op)
  : option (Emerge D * (bytes * option error)) :=
  match o with
  | OpGet k => Emerge_Get k e
  | OpSet k v => '(e1, err) ← Emerge_Set k v e; Some (e1, ([], err))
  | OpDel k => '(e1, err) ← Emerge_Del k e; Some (e1, ([], err))
  end.

Fixpoint Emerge_run {D : Type} `{!Driver D} (ops : list Op) (e : Emerge D)
  : option (Emerge D * list (bytes * option error)) :=
  match ops with
  | [] => Some (e, [])
  | o :: ops' =>
      '(e1, r) ← Emerge_call e o;
      '(e2, rs) ← Emerge_run ops' e1;
      Some (e2, r :: rs)
  end.

(** ** The command: cmd/acdb *)

(** [err.Error()] for the errors above: [os.ErrNotExist], a
    [*fs.PathError] ("op path: errno text"), and errors that carry their
    text. *)
Definition Errno_Error (n : Errno) : string :=
  match n with
  | ENOENT => "no such file or directory"
  | EACCES => "permission denied"
  | EISDIR => "is a directory"
  | ENOTDIR => "not a directory"
  | ENOSPC => "no space left on device"
  | EIO => "input/output error"
  end.

Definition error_Error (e : error) : string :=
  match e with
  | ErrNotExist => "file does not exist"
  | PathError op path n => op +:+ " " +:+ path +:+ ": " +:+ Errno_Error n
  | JsonError msg => msg
  | ErrorString msg => msg
  end.

(** What [hand] reads of a [*http.Request]: [r.Method],
    [r.URL.EscapedPath()] and the result of [ioutil.ReadAll(r.Body)]. *)
Record Request := mkRequest {
  Method : string;
  EscapedPath : string;
  Body : bytes * option error;
}.

(** An [http.ResponseWriter]: the status written so far, if any, and the
    body.  The first [WriteHeader] counts; [Write] without one sends 200. *)
Record ResponseWriter := mkResponseWriter {
  status : option Z;
  body : bytes;
}.

Definition NewResponseWriter : ResponseWriter := mkResponseWriter None [].

Definition ResponseWriter_WriteHeader (code : Z) (w : ResponseWriter)
  : ResponseWriter :=
  match status w with
  | None => mkResponseWriter (Some code) (body w)
  | Some _ => w
  end.

Definition ResponseWriter_Write (b : bytes) (w : ResponseWriter)
  : ResponseWriter :=
  mkResponseWriter (Some (default 200 (status w))) (body w ++ b).

(** The status the peer gets once the handler has returned. *)
Definition ResponseWriter_sent (w : ResponseWriter) : Z := default 200 (status w).

Definition StatusBadRequest : Z := 400.
Definition StatusNotFound : Z := 404.

(** The package variables of the command: [client], and the lines handed
    to [log.Println] so far, each as its list of arguments. *)
Record Server (D : Type) := mkServer {
  client : Emerge D;
  logged : list (list string);
}.
Arguments mkServer {D} _ _.
Arguments client {D} _.
Arguments logged {D} _.

Section hand.
Context {D : Type} `{!Driver D}.

(** [w.WriteHeader(http.StatusNotFound); w.Write([]byte(err.Error()))],
    the answer of [hand] to every error. *)
Definition hand_error (e : error) (w : ResponseWriter) : ResponseWriter :=
  ResponseWriter_Write (String.list_byte_of_string (error_Error e))
    (ResponseWriter_WriteHeader StatusNotFound w).

Definition hand (w : ResponseWriter) (r : Request) (st : Server D)
  : option (Server D * ResponseWriter) :=
  let k := EscapedPath r in
  if decide (k = "/") then Some (st, ResponseWriter_WriteHeader StatusBadRequest w)
  else if decide (Method r = "GET") then
    '(c1, (b, err)) ← Emerge_Get k (client st);
    match err with
    | Some e => Some (mkServer c1 (logged st), hand_error e w)
    | None => Some (mkServer c1 (logged st), ResponseWriter_Write b w)
    end
  else if decide (Method r = "PUT") then
    let '(b, err) := Body r in
    match err with
    | Some e => Some (st, hand_error e w)
    | None =>
        let lg := logged st ++ [["set"; k; String.string_of_list_byte b]] in
        '(c1, err) ← Emerge_Set k b (client st);
        match err with
        | Some e => Some (mkServer c1 lg, hand_error e w)
        | None => Some (mkServer c1 lg, w)
        end
    end
  else if decide (Method r = "DELETE") then
    let lg := logged st ++ [["del"; k]] in
    '(c1, err) ← Emerge_Del k (client st);
    match err with
    | Some e => Some (mkServer c1 lg, hand_error e w)
    | None => Some (mkServer c1 lg, w)
    end
  else Some (st, w).

(** Requests served one at a time, each with a new response writer; the
    answers are the status and the body sent. *)
Fixpoint serve (rs : list Request) (st : Server D)
  : option (Server D * list (Z * bytes)) :=
  match rs with
  | [] => Some (st, [])
  | r :: rs' =>
      '(st1, w) ← hand NewResponseWriter r st;
      '(st2, ws) ← serve rs' st1;
      Some (st2, (ResponseWriter_sent w, body w) :: ws)
  end.
End hand.

(** ** The cache and the files *)

Definition Op_key (o : Op) : string :=
  match o with
  | OpGet k | OpSet k _ | OpDel k => k
  end.

(** The directory is writable, and every value in the cache is the content
    of the file of its key, a key among [K]. *)
Definition MapDriver_coherent `{!OS Disk} (K : string → Prop)
    (s : MapDriver (DocDriver Disk) LruDriver) : Prop :=
  writable (disk (doc s)) = true ∧
  ∀ k v, lru_find k (lru_List (lru_data (lru s))) = Some v →
         K k ∧ files (disk (doc s)) !! path_Join (root (doc s)) k = Some v.

(** The files of [Disk] under a [path.Join] that, like the one of Go, does
    not double the slash before a key that starts with one: "db" and "/a"
    give "db/a", and so do "db" and "a". *)
Definition trim_slash (k : string) : string :=
  match k with
  | String a k' => if decide (String a "" = "/") then k' else k
  | EmptyString => k
  end.

Definition Disk_OS_trim : OS Disk := {|
  path_Join r k := r +:+ "/" +:+ trim_slash k;
  os_MkdirAll _ w := (w, None);
  os_ReadFile := Disk_ReadFile;
  os_WriteFile := Disk_WriteFile;
  os_Remove := Disk_Remove;
|}.

(** * Properties *)

(** ** The cache of package [lru] *)

Lemma lru_find_drop_eq (k : string) (l : list (string * bytes)) :
  lru_find k (lru_drop k l) = None.
Proof.
  unfold lru_drop. induction l as [|[k' v] l IH]; [done|].
  rewrite filter_cons. simpl. case_decide as Hk; simpl; [|done].
  destruct (decide (k = k')); [congruence | done].
Qed.

Lemma lru_find_drop_ne (k k' : string) (l : list (string * bytes)) :
  k ≠ k' → lru_find k' (lru_drop k l) = lru_find k' l.
Proof.
  intros Hne. unfold lru_drop. induction l as [|[k0 v] l IH]; [done|].
  rewrite filter_cons. simpl. case_decide as Hk; simpl.
  - by rewrite IH.
  - rewrite IH. destruct (decide (k' = k0)); [congruence | done].
Qed.

Lemma lru_drop_absent (k : string) (l : list (string * bytes)) :
  lru_find k l = None → lru_drop k l = l.
Proof.
  unfold lru_drop. induction l as [|[k' v] l IH]; [done|].
  simpl. destruct (decide (k = k')) as [|Hne]; [done|]. intros Hf.
  rewrite filter_cons. simpl. case_decide; [|congruence]. by rewrite IH.
Qed.

Lemma lru_drop_length (k : string) (l : list (string * bytes)) :
  (length (lru_drop k l) ≤ length l)%nat.
Proof. apply length_filter. Qed.

Lemma lru_find_Some_drop_length (k : string) (v : bytes) (l : list (string * bytes)) :
  lru_find k l = Some v → (length (lru_drop k l) < length l)%nat.
Proof.
  unfold lru_drop. induction l as [|[k' v'] l IH]; [done|].
  simpl. rewrite filter_cons. simpl.
  destruct (decide (k = k')) as [->|Hne].
  - intros _. case_decide; [done|]. pose proof (length_filter (λ e, e.1 ≠ k') l). lia.
  - intros Hf. case_decide; [|congruence]. simpl. specialize (IH Hf). lia.
Qed.

Lemma lru_Get_Size (k : string) (c : lru_Cache) :
  lru_Size (lru_Get k c).1 = lru_Size c.
Proof. unfold lru_Get. by destruct (lru_find k (lru_List c)). Qed.

Lemma lru_Set_Size (k : string) (v : bytes) (c : lru_Cache) :
  lru_Size (lru_Set k v c) = lru_Size c.
Proof.
  unfold lru_Set. destruct (lru_find k (lru_List c)); [done|].
  simpl. by case_match.
Qed.

Lemma lru_Get_miss (k : string) (c : lru_Cache) :
  lru_find k (lru_List c) = None → lru_Get k c = (c, None).
Proof. unfold lru_Get. by intros ->. Qed.

Lemma lru_Get_hit (k : string) (v : bytes) (c : lru_Cache) :
  lru_find k (lru_List c) = Some v →
  lru_Get k c = (mkCache (lru_Size c) ((k, v) :: lru_drop k (lru_List c)), Some v).
Proof. unfold lru_Get. by intros ->. Qed.

(** With room for one entry, the entry just written is resident. *)
Lemma lru_Set_find (k : string) (v : bytes) (c : lru_Cache) :
  0 < lru_Size c → lru_find k (lru_List (lru_Set k v c)) = Some v.
Proof.
  intros Hsz. unfold lru_Set. destruct (lru_find k (lru_List c)).
  - simpl. by rewrite decide_True.
  - cbv zeta. case_match eqn:Hlt; simpl lru_List.
    + destruct (lru_List c) as [|e l].
      * apply Z.ltb_lt in Hlt. simpl in Hlt. lia.
      * simpl. by rewrite decide_True.
    + simpl. by rewrite decide_True.
Qed.

Lemma lru_Set_find_ne (k k' : string) (v : bytes) (c : lru_Cache) :
  k ≠ k' → Z.of_nat (length (lru_List c)) < lru_Size c →
  lru_find k' (lru_List (lru_Set k v c)) = lru_find k' (lru_List c).
Proof.
  intros Hne Hsz. unfold lru_Set. destruct (lru_find k (lru_List c)).
  - simpl. rewrite decide_False by done. by apply lru_find_drop_ne.
  - cbv zeta. case_match eqn:Hlt; simpl lru_List.
    + apply Z.ltb_lt in Hlt. simpl length in Hlt. lia.
    + simpl. by rewrite decide_False.
Qed.

(** ** LruDriver *)

Lemma LruDriver_Get_hit (k : string) (v : bytes) (d : LruDriver) :
  lru_find k (lru_List (lru_data d)) = Some v →
  LruDriver_Get k d =
    ({| lru_data := mkCache (lru_Size (lru_data d))
                            ((k, v) :: lru_drop k (lru_List (lru_data d))) |},
     (v, None)).
Proof. intros Hf. unfold LruDriver_Get. by rewrite (lru_Get_hit _ _ _ Hf). Qed.

Lemma LruDriver_Get_miss (k : string) (d : LruDriver) :
  lru_find k (lru_List (lru_data d)) = None →
  LruDriver_Get k d = (d, ([], Some ErrNotExist)).
Proof.
  intros Hf. unfold LruDriver_Get. rewrite (lru_Get_miss _ _ Hf). by destruct d.
Qed.

(** [LruDriver.Get] fails on a miss only, and a miss leaves the cache as it
    was. *)
Lemma LruDriver_Get_err (k : string) (d d' : LruDriver) (b : bytes) (e : error) :
  LruDriver_Get k d = (d', (b, Some e)) →
  d' = d ∧ lru_find k (lru_List (lru_data d)) = None.
Proof.
  unfold LruDriver_Get, lru_Get.
  destruct (lru_find k (lru_List (lru_data d))) eqn:Hf; [done|].
  intros [= <- _ _]. by destruct d.
Qed.

Lemma LruDriver_Set_Get (k : string) (v : bytes) (d : LruDriver) :
  0 < lru_Size (lru_data d) →
  (LruDriver_Get k (LruDriver_Set k v d).1).2 = (v, None).
Proof.
  intros Hsz. unfold LruDriver_Set. simpl.
  erewrite LruDriver_Get_hit; [done|]. simpl. by apply lru_Set_find.
Qed.

Lemma LruDriver_step_Size (d : LruDriver) (o : Op) :
  lru_Size (lru_data (Driver_step d o)) = lru_Size (lru_data d).
Proof.
  destruct o as [k|k v|k]; simpl.
  - unfold LruDriver_Get. pose proof (lru_Get_Size k (lru_data d)) as H.
    by destruct (lru_Get k (lru_data d)) as [c [?|]].
  - apply lru_Set_Size.
  - done.
Qed.

(** ** MapDriver, for any two drivers *)

Section MapDriver_paths.
Context {Doc Lru : Type} `{!Driver Doc, !Driver Lru}.
Implicit Types (s : MapDriver Doc Lru) (k : string) (v buf : bytes).

Lemma MapDriver_Get_hit k s l1 buf :
  Driver_Get k (lru s) = (l1, (buf, None)) →
  MapDriver_Get k s = (mkMapDriver (doc s) l1, (buf, None)).
Proof. unfold MapDriver_Get. by intros ->. Qed.



Lemma MapDriver_Set_lru_err k v s l1 e :
  Driver_Set k v (lru s) = (l1, Some e) →
  MapDriver_Set k v s = (mkMapDriver (doc s) l1, Some e).
Proof. unfold MapDriver_Set. by intros ->. Qed.

Lemma MapDriver_Set_lru_ok k v s l1 d1 r :
  Driver_Set k v (lru s) = (l1, None) →
  Driver_Set k v (doc s) = (d1, r) →
  MapDriver_Set k v s = (mkMapDriver d1 l1, r).
Proof. unfold MapDriver_Set. intros -> ->. by destruct r. Qed.

Lemma MapDriver_Del_lru_err k s l1 e :
  Driver_Del k (lru s) = (l1, Some e) →
  MapDriver_Del k s = (mkMapDriver (doc s) l1, Some e).
Proof. unfold MapDriver_Del. by intros ->. Qed.

Lemma MapDriver_Del_lru_ok k s l1 d1 r :
  Driver_Del k (lru s) = (l1, None) →
  Driver_Del k (doc s) = (d1, r) →
  MapDriver_Del k s = (mkMapDriver d1 l1, r).
Proof. unfold MapDriver_Del. intros -> ->. by destruct r. Qed.
End MapDriver_paths.

(** ** MapDriver over a LruDriver cache *)

Section MapDriver_lru.
Context {Doc : Type} `{!Driver Doc}.
Implicit Types (s : MapDriver Doc LruDriver) (k : string) (v buf : bytes).

Lemma MapDriver_Set_eq k v s :
  MapDriver_Set k v s =
    (mkMapDriver (Driver_Set k v (doc s)).1 (LruDriver_Set k v (lru s)).1,
     (Driver_Set k v (doc s)).2).
Proof.
  destruct (Driver_Set k v (doc s)) as [d1 r] eqn:Hd.
  by apply MapDriver_Set_lru_ok.
Qed.

Lemma MapDriver_Del_eq k s :
  MapDriver_Del k s =
    (mkMapDriver (Driver_Del k (doc s)).1 (LruDriver_Del k (lru s)).1,
     (Driver_Del k (doc s)).2).
Proof.
  destruct (Driver_Del k (doc s)) as [d1 r] eqn:Hd.
  by apply MapDriver_Del_lru_ok.
Qed.

Lemma MapDriver_step_Size s (o : Op) :
  lru_Size (lru_data (lru (Driver_step s o))) = lru_Size (lru_data (lru s)).
Proof.
  destruct o as [k|k v|k]; simpl.
  - pose proof (LruDriver_step_Size (lru s) (OpGet k)) as Hsz. simpl in Hsz.
    unfold MapDriver_Get. simpl Driver_Get at 1.
    destruct (LruDriver_Get k (lru s)) as [l1 [b0 [e0|]]]; [|done].
    destruct (Driver_Get k (doc s)) as [d1 [buf [e|]]]; simpl; [done|].
    by rewrite lru_Set_Size.
  - rewrite MapDriver_Set_eq. simpl. apply lru_Set_Size.
  - by rewrite MapDriver_Del_eq.
Qed.

Lemma MapDriver_run_Size (ops : list Op) s :
  lru_Size (lru_data (lru (Driver_run ops s))) = lru_Size (lru_data (lru s)).
Proof.
  revert s. induction ops as [|o ops IH]; intros s; [done|].
  change (Driver_run (o :: ops) s) with (Driver_run ops (Driver_step s o)).
  by rewrite IH, MapDriver_step_Size.
Qed.
End MapDriver_lru.

(** Every store that [NewMapDriver] made keeps a cache of size 1024,
    whatever was called on it since. *)
Lemma NewMapDriver_run_Size {fs : Type} `{!OS fs} (r : string) (w : fs)
    (d0 : MapDriver (DocDriver fs) LruDriver) (ops : list Op) :
  NewMapDriver r w = Some d0 →
  lru_Size (lru_data (lru (Driver_run ops d0))) = 1024.
Proof.
  unfold NewMapDriver. destruct (NewDocDriver r w); [|done].
  intros [= <-]. by rewrite MapDriver_run_Size.
Qed.

(** ** MapDriver as the source builds it: DocDriver behind LruDriver *)

(** C1: on a store made by [NewMapDriver], after any history of calls,
    [Set(k, v)] followed by [Get(k)] returns exactly [v] and a nil error, for
    every key and every byte sequence, the empty one included, and whatever
    the file system did with the write. *)
Theorem MapDriver_Set_then_Get {fs : Type} `{!OS fs} (r : string) (w : fs)
    (s0 : MapDriver (DocDriver fs) LruDriver) (ops : list Op)
    (k : string) (v : bytes) :
  NewMapDriver r w = Some s0 →
  (MapDriver_Get k (MapDriver_Set k v (Driver_run ops s0)).1).2 = (v, None).
Proof.
  intros Hnew. pose proof (NewMapDriver_run_Size r w s0 ops Hnew) as Hsz.
  set (s := Driver_run ops s0) in *.
  rewrite MapDriver_Set_eq. cbn [fst].
  assert (LruDriver_Get k (LruDriver_Set k v (lru s)).1
          = ((LruDriver_Get k (LruDriver_Set k v (lru s)).1).1, (v, None))) as Hhit.
  { rewrite <- (LruDriver_Set_Get k v (lru s)) by lia. by destruct (LruDriver_Get _ _). }
  unfold MapDriver_Get. cbn [lru].
  change (@Driver_Get LruDriver _) with LruDriver_Get. by rewrite Hhit.
Qed.

Lemma MapDriver_Set_then_Get_witness :
  NewMapDriver "db" disk_ro = Some store_ro ∧
  (MapDriver_Get "k" (MapDriver_Set "k" []
     (Driver_run [OpSet "a" []; OpDel "a"] store_ro)).1).2 = ([], None).
Proof.
  split; [reflexivity|].
  apply (MapDriver_Set_then_Get "db" disk_ro store_ro). reflexivity.
Defined.

(** C2: [Get(k)] asks the cache first.  On a hit it returns the cached
    value at once and the backend is left as it was.  On a miss it asks the
    DocDriver: when that succeeds the value is written to the cache and
    returned, and is resident afterwards; when that fails the error is
    returned and the cache is left as it was. *)
Theorem MapDriver_Get_read_through {fs : Type} `{!OS fs} (k : string)
    (s : MapDriver (DocDriver fs) LruDriver) :
  0 < lru_Size (lru_data (lru s)) →
  (∀ l1 buf,
      LruDriver_Get k (lru s) = (l1, (buf, None)) →
      MapDriver_Get k s = (mkMapDriver (doc s) l1, (buf, None))) ∧
  (∀ l1 b0 e0 d1 buf,
      LruDriver_Get k (lru s) = (l1, (b0, Some e0)) →
      DocDriver_Get k (doc s) = (d1, (buf, None)) →
      MapDriver_Get k s
        = (mkMapDriver d1 (LruDriver_Set k buf (lru s)).1, (buf, None)) ∧
      lru_find k (lru_List (lru_data (lru (MapDriver_Get k s).1))) = Some buf ∧
      (LruDriver_Get k (lru (MapDriver_Get k s).1)).2 = (buf, None)) ∧
  (∀ l1 b0 e0 d1 b1 e,
      LruDriver_Get k (lru s) = (l1, (b0, Some e0)) →
      DocDriver_Get k (doc s) = (d1, (b1, Some e)) →
      MapDriver_Get k s = (mkMapDriver d1 (lru s), ([], Some e))).
Proof.
  intros Hsz. split; [|split].
  - intros l1 buf Hl. unfold MapDriver_Get.
    change (@Driver_Get LruDriver _) with LruDriver_Get. by rewrite Hl.
  - intros l1 b0 e0 d1 buf Hl Hd.
    destruct (LruDriver_Get_err _ _ _ _ _ Hl) as [-> Hmiss].
    assert (MapDriver_Get k s
            = (mkMapDriver d1 (LruDriver_Set k buf (lru s)).1, (buf, None))) as ->.
    { unfold MapDriver_Get.
      change (@Driver_Get LruDriver _) with LruDriver_Get.
      change (@Driver_Get (DocDriver fs) _) with (@DocDriver_Get fs _).
      by rewrite Hl, Hd. }
    split; [done|]. cbn [fst lru].
    split; [by apply lru_Set_find | by apply LruDriver_Set_Get].
  - intros l1 b0 e0 d1 b1 e Hl Hd.
    destruct (LruDriver_Get_err _ _ _ _ _ Hl) as [-> _].
    unfold MapDriver_Get.
    change (@Driver_Get LruDriver _) with LruDriver_Get.
    change (@Driver_Get (DocDriver fs) _) with (@DocDriver_Get fs _).
    by rewrite Hl, Hd.
Qed.

Lemma MapDriver_Get_read_through_witness :
  0 < lru_Size (lru_data (lru store_cold)) ∧
  LruDriver_Get "k" (lru store_cold) = (lru store_cold, ([], Some ErrNotExist)) ∧
  (DocDriver_Get "k" (doc store_cold)).2 = (String.list_byte_of_string "v", None) ∧
  (MapDriver_Get "k" store_cold).2 = (String.list_byte_of_string "v", None) ∧
  lru_find "k" (lru_List (lru_data (lru (MapDriver_Get "k" store_cold).1)))
    = Some (String.list_byte_of_string "v").
Proof.
  assert (0 < lru_Size (lru_data (lru store_cold))) as Hsz by (simpl; lia).
  destruct (MapDriver_Get_read_through "k" store_cold Hsz) as (_ & Hok & _).
  destruct (Hok (lru store_cold) [] ErrNotExist
                (doc store_cold) (String.list_byte_of_string "v")
                eq_refl eq_refl) as (Hget & Hres & _).
  split; [exact Hsz|]. split; [reflexivity|]. split; [reflexivity|].
  split; [by rewrite Hget | exact Hres].
Defined.

(** The scenario of section 8 in the layered store, with a cache of two
    entries: after [Set a; Set b; Set c] the cache holds c and b; [Get a]
    is answered by the backend and puts a back, evicting b. *)
Example MapDriver_scenario :
  let s0 := mkMapDriver (mkDocDriver "db" disk_rw) (NewLruDriver 2) in
  let s := Driver_run [OpSet "a" []; OpSet "b" []; OpSet "c" []] s0 in
  (lru_List (lru_data (lru s))).*1 = ["c"; "b"] ∧
  (MapDriver_Get "a" s).2 = ([], None) ∧
  (lru_List (lru_data (lru (MapDriver_Get "a" s).1))).*1 = ["a"; "c"].
Proof. vm_compute. done. Qed.

(** C4 as stated fails.  On a read-only directory [Set("k", v)] fails in
    the backend and leaves "k" in the cache only; [Del("k")] then fails
    with a not-found error, and the cache is not as it was before the call:
    it has lost the entry of "k". *)
Lemma MapDriver_Del_changes_cache :
  let s := (MapDriver_Set "k" [] store_ro).1 in
  NewMapDriver "db" disk_ro = Some store_ro ∧
  (MapDriver_Del "k" s).2 = Some (PathError "remove" "db/k" ENOENT) ∧
  IsNotExist (PathError "remove" "db/k" ENOENT) = true ∧
  lru_List (lru_data (lru s)) = [("k", [])] ∧
  lru_List (lru_data (lru (MapDriver_Del "k" s).1)) = [] ∧
  lru (MapDriver_Del "k" s).1 ≠ lru s.
Proof. vm_compute. repeat split; done. Qed.

(** C4, amended: [Del(k)] removes [k] from the cache, which never fails,
    then deletes in the backend; an error of the backend delete, the
    not-found one included, is returned as it is.  In that failing case the
    cache holds no entry for [k] afterwards and every other entry is as
    before; when [k] was not resident the cache is unchanged. *)
Theorem MapDriver_Del_backend_error {fs : Type} `{!OS fs} (k : string)
    (s : MapDriver (DocDriver fs) LruDriver) (d1 : DocDriver fs) (e : error) :
  DocDriver_Del k (doc s) = (d1, Some e) →
  (LruDriver_Del k (lru s)).2 = None ∧
  MapDriver_Del k s = (mkMapDriver d1 (LruDriver_Del k (lru s)).1, Some e) ∧
  lru_find k (lru_List (lru_data (lru (MapDriver_Del k s).1))) = None ∧
  (∀ k', k ≠ k' →
     lru_find k' (lru_List (lru_data (lru (MapDriver_Del k s).1)))
     = lru_find k' (lru_List (lru_data (lru s)))) ∧
  (lru_find k (lru_List (lru_data (lru s))) = None →
     lru (MapDriver_Del k s).1 = lru s).
Proof.
  intros Hd. split; [done|].
  assert (MapDriver_Del k s
          = (mkMapDriver d1 (LruDriver_Del k (lru s)).1, Some e)) as ->.
  { rewrite MapDriver_Del_eq.
    change (@Driver_Del (DocDriver fs) _) with (@DocDriver_Del fs _).
    by rewrite Hd. }
  split; [done|]. cbn [fst lru LruDriver_Del lru_data lru_Del lru_List].
  split; [apply lru_find_drop_eq|].
  split; [intros k' Hne; by apply lru_find_drop_ne|].
  intros Habs. unfold lru_Del. rewrite (lru_drop_absent _ _ Habs).
  by destruct (lru s) as [[sz l]].
Qed.

Lemma MapDriver_Del_backend_error_witness :
  DocDriver_Del "missing-key" (doc store_rw)
    = (doc store_rw, Some (PathError "remove" "db/missing-key" ENOENT)) ∧
  MapDriver_Del "missing-key" store_rw
    = (store_rw, Some (PathError "remove" "db/missing-key" ENOENT)).
Proof.
  assert (DocDriver_Del "missing-key" (doc store_rw)
    = (doc store_rw, Some (PathError "remove" "db/missing-key" ENOENT)))
    as Hd by reflexivity.
  split; [exact Hd|].
  destruct (MapDriver_Del_backend_error "missing-key" store_rw _ _ Hd)
    as (_ & Hdel & _).
  rewrite Hdel. reflexivity.
Defined.

(** C5: [Set(k, v)] writes to the cache first and to the backend second.
    When the cache write fails, its error is returned and the backend is
    not touched (for any two drivers); otherwise the result of the backend
    write is the result of the call.  With the LruDriver cache of the
    source, a failed backend write returns that failure and leaves [v]
    resident in the cache. *)
Theorem MapDriver_Set_write_through :
  (∀ (Doc Lru : Type) (HD : Driver Doc) (HL : Driver Lru) (k : string)
     (v : bytes) (s : MapDriver Doc Lru) (l1 : Lru) (e : error),
      Driver_Set k v (lru s) = (l1, Some e) →
      MapDriver_Set k v s = (mkMapDriver (doc s) l1, Some e)) ∧
  (∀ (Doc Lru : Type) (HD : Driver Doc) (HL : Driver Lru) (k : string)
     (v : bytes) (s : MapDriver Doc Lru) (l1 : Lru) (d1 : Doc) (r : option error),
      Driver_Set k v (lru s) = (l1, None) →
      Driver_Set k v (doc s) = (d1, r) →
      MapDriver_Set k v s = (mkMapDriver d1 l1, r)) ∧
  (∀ (fs : Type) (HO : OS fs) (k : string) (v : bytes)
     (s : MapDriver (DocDriver fs) LruDriver) (d1 : DocDriver fs) (e : error),
      0 < lru_Size (lru_data (lru s)) →
      DocDriver_Set k v (doc s) = (d1, Some e) →
      MapDriver_Set k v s
        = (mkMapDriver d1 (LruDriver_Set k v (lru s)).1, Some e) ∧
      (LruDriver_Get k (lru (MapDriver_Set k v s).1)).2 = (v, None)).
Proof.
  split; [|split].
  - intros. by apply MapDriver_Set_lru_err.
  - intros. by apply MapDriver_Set_lru_ok.
  - intros fs HO k v s d1 e Hsz Hd.
    assert (MapDriver_Set k v s
            = (mkMapDriver d1 (LruDriver_Set k v (lru s)).1, Some e)) as ->.
    { rewrite MapDriver_Set_eq.
      change (@Driver_Set (DocDriver fs) _) with (@DocDriver_Set fs _).
      by rewrite Hd. }
    split; [done|]. by apply LruDriver_Set_Get.
Qed.

Lemma MapDriver_Set_write_through_witness :
  MapDriver_Set "k" [] store_nocache = (store_nocache, Some (ErrorString "no space")) ∧
  (MapDriver_Set "k" [] store_rw).2 = None ∧
  (MapDriver_Set "k" [] store_ro).2 = Some (PathError "open" "db/k" EACCES) ∧
  (LruDriver_Get "k" (lru (MapDriver_Set "k" [] store_ro).1)).2 = ([], None).
Proof.
  destruct MapDriver_Set_write_through as (Hcache & Hboth & Hback).
  split.
  { apply (Hcache _ _ _ _ "k" [] store_nocache mkNoDriver). reflexivity. }
  split.
  { assert (Driver_Set "k" [] (lru store_rw)
            = ((LruDriver_Set "k" [] (lru store_rw)).1, None)) as Hl by reflexivity.
    assert (Driver_Set "k" [] (doc store_rw)
            = ((DocDriver_Set "k" [] (doc store_rw)).1, None)) as Hd by reflexivity.
    rewrite (Hboth _ _ _ _ "k" [] store_rw _ _ _ Hl Hd). reflexivity. }
  destruct (Hback Disk _ "k" [] store_ro (doc store_ro)
              (PathError "open" "db/k" EACCES)) as [Hset Hget].
  { simpl. lia. }
  { reflexivity. }
  split; [by rewrite Hset | exact Hget].
Defined.




(** ** Construction of the cache driver *)



(** ** Deleting a key that is not there *)

(** C10: [MemDriver.Del] and [LruDriver.Del] return a nil error for every
    key and every state, and leave a store that does not hold the key as it
    is.  On the file system of [Disk], [DocDriver.Del] and [MapDriver.Del]
    of a key without a file return a not-found error instead. *)
Theorem Del_absent_key (k : string) :
  (∀ d : MemDriver, (MemDriver_Del k d).2 = None) ∧
  (∀ d : MemDriver, mem_data d !! k = None → MemDriver_Del k d = (d, None)) ∧
  (∀ d : LruDriver, (LruDriver_Del k d).2 = None) ∧
  (∀ d : LruDriver,
      lru_find k (lru_List (lru_data d)) = None → LruDriver_Del k d = (d, None)) ∧
  (∀ d : DocDriver Disk,
      files (disk d) !! path_Join (root d) k = None →
      (DocDriver_Del k d).2 = Some (PathError "remove" (path_Join (root d) k) ENOENT)) ∧
  (∀ s : MapDriver (DocDriver Disk) LruDriver,
      files (disk (doc s)) !! path_Join (root (doc s)) k = None →
      (MapDriver_Del k s).2
        = Some (PathError "remove" (path_Join (root (doc s)) k) ENOENT)).
Proof.
  assert (∀ d : DocDriver Disk,
      files (disk d) !! path_Join (root d) k = None →
      (DocDriver_Del k d).2
        = Some (PathError "remove" (path_Join (root d) k) ENOENT)) as Hdoc.
  { intros d Hf. unfold DocDriver_Del. cbn [os_Remove Disk_OS].
    unfold Disk_Remove. by rewrite Hf. }
  repeat split; try done.
  - intros [md] Hf. unfold MemDriver_Del. simpl in *. by rewrite delete_id.
  - intros [[sz l]] Hf. unfold LruDriver_Del, lru_Del. simpl in *.
    by rewrite lru_drop_absent.
  - intros s Hf. rewrite MapDriver_Del_eq. cbn [snd]. by apply Hdoc.
Qed.

Lemma Del_absent_key_witness :
  MemDriver_Del "k" NewMemDriver = (NewMemDriver, None) ∧
  LruDriver_Del "k" (NewLruDriver 4) = (NewLruDriver 4, None) ∧
  (DocDriver_Del "k" (doc store_rw)).2 = Some (PathError "remove" "db/k" ENOENT) ∧
  (MapDriver_Del "k" store_rw).2 = Some (PathError "remove" "db/k" ENOENT).
Proof.
  destruct (Del_absent_key "k") as (_ & Hmem & _ & Hlru & Hdoc & Hmap).
  split; [apply Hmem; reflexivity|].
  split; [apply Hlru; reflexivity|].
  split; [apply (Hdoc (doc store_rw)); reflexivity|].
  apply (Hmap store_rw); reflexivity.
Defined.

(** ** Emerge *)

Section Emerge_calls.
Context {D : Type} `{!Driver D}.

(** A call on a client whose mutex is free returns, with the mutex free
    again, what the driver returns: on the error paths too. *)
Lemma Emerge_Get_unlocked (k : string) (e : Emerge D) :
  locked (m e) = false →
  Emerge_Get k e
    = Some (mkEmerge (Driver_Get k (driver e)).1 (m e), (Driver_Get k (driver e)).2).
Proof.
  destruct e as [d [l]]. simpl. intros ->. unfold Emerge_Get. simpl.
  by destruct (Driver_Get k d).
Qed.

Lemma Emerge_Set_unlocked (k : string) (v : bytes) (e : Emerge D) :
  locked (m e) = false →
  Emerge_Set k v e
    = Some (mkEmerge (Driver_Set k v (driver e)).1 (m e), (Driver_Set k v (driver e)).2).
Proof.
  destruct e as [d [l]]. simpl. intros ->. unfold Emerge_Set. simpl.
  by destruct (Driver_Set k v d).
Qed.

Lemma Emerge_Del_unlocked (k : string) (e : Emerge D) :
  locked (m e) = false →
  Emerge_Del k e
    = Some (mkEmerge (Driver_Del k (driver e)).1 (m e), (Driver_Del k (driver e)).2).
Proof.
  destruct e as [d [l]]. simpl. intros ->. unfold Emerge_Del. simpl.
  by destruct (Driver_Del k d).
Qed.

Lemma NewEmerge_unlocked (d : D) : locked (m (NewEmerge d)) = false.
Proof. done. Qed.
End Emerge_calls.

(** C8: on a client whose mutex is free, [SetEncode(k, v)] marshals [v]
    and then is the guarded [Set] of the bytes; a marshal error is returned
    as it is and the client, its driver included, is left untouched.
    [GetDecode(k, v)] is the guarded [Get] followed by unmarshalling the
    bytes into [v], whose error, if any, is returned as it is; an error of
    [Get] is returned as it is, and [v] is left as it was. *)
Theorem Emerge_SetEncode_GetDecode {D V : Type} `{!Driver D, !Json V}
    (k : string) (v : V) (e : Emerge D) :
  locked (m e) = false →
  (∀ b, json_Marshal v = (b, None) →
     Emerge_SetEncode k v e = Emerge_Set k b e ∧
     Emerge_Set k b e
       = Some (mkEmerge (Driver_Set k b (driver e)).1 (m e),
               (Driver_Set k b (driver e)).2)) ∧
  (∀ b x, json_Marshal v = (b, Some x) →
     Emerge_SetEncode k v e = Some (e, Some x)) ∧
  Emerge_Get k e
    = Some (mkEmerge (Driver_Get k (driver e)).1 (m e), (Driver_Get k (driver e)).2) ∧
  (∀ b, (Driver_Get k (driver e)).2 = (b, None) →
     Emerge_GetDecode k v e
       = Some (mkEmerge (Driver_Get k (driver e)).1 (m e),
               (json_Unmarshal b v).1, (json_Unmarshal b v).2)) ∧
  (∀ b x, (Driver_Get k (driver e)).2 = (b, Some x) →
     Emerge_GetDecode k v e
       = Some (mkEmerge (Driver_Get k (driver e)).1 (m e), v, Some x)).
Proof.
  intros Hm. split; [|split; [|split; [|split]]].
  - intros b Hb. split; [|by apply Emerge_Set_unlocked].
    unfold Emerge_SetEncode. by rewrite Hb.
  - intros b x Hb. unfold Emerge_SetEncode. by rewrite Hb.
  - by apply Emerge_Get_unlocked.
  - intros b Hg. unfold Emerge_GetDecode.
    rewrite (Emerge_Get_unlocked _ _ Hm), Hg. simpl.
    by destruct (json_Unmarshal b v).
  - intros b x Hg. unfold Emerge_GetDecode.
    by rewrite (Emerge_Get_unlocked _ _ Hm), Hg.
Qed.

Lemma Emerge_SetEncode_GetDecode_witness :
  Emerge_SetEncode "k" GoFunc Mem
    = Some (Mem, Some (JsonError "json: unsupported type: func()")) ∧
  Emerge_GetDecode "k" GoNil Mem = Some (Mem, GoNil, Some ErrNotExist) ∧
  Emerge_SetEncode "k" (GoBool true) Mem
    = Emerge_Set "k" (String.list_byte_of_string "true") Mem.
Proof.
  destruct (Emerge_SetEncode_GetDecode (V:=GoValue) "k" GoFunc Mem eq_refl)
    as (_ & Henc & _).
  destruct (Emerge_SetEncode_GetDecode (V:=GoValue) "k" GoNil Mem eq_refl)
    as (_ & _ & _ & _ & Hget).
  destruct (Emerge_SetEncode_GetDecode (V:=GoValue) "k" (GoBool true) Mem eq_refl)
    as (Hset & _).
  split; [apply (Henc []); reflexivity|].
  split; [apply (Hget []); reflexivity|].
  apply (Hset (String.list_byte_of_string "true")). reflexivity.
Defined.

(** Encoding, storing, reading back and decoding through a memory client. *)
Example Emerge_roundtrip :
  (Emerge_SetEncode "k" (GoBool true) Mem ≫= λ '(e, _),
   Emerge_GetDecode "k" GoNil e) =
  Some (mkEmerge
          {| mem_data := {[ "k" := String.list_byte_of_string "true" ]} |}
          {| locked := false |},
        GoBool true, None).
Proof. vm_compute. reflexivity. Qed.

(** ** The order of the cache is the order of the touches *)

Lemma lru_find_None (k : string) (l : list (string * bytes)) :
  lru_find k l = None ↔ Forall (λ e, e.1 ≠ k) l.
Proof.
  induction l as [|[k' v] l IH]; simpl.
  - split; [constructor | done].
  - rewrite Forall_cons. simpl. destruct (decide (k = k')) as [->|Hne].
    + split; [done | by intros [? _]].
    + rewrite IH. split; [intros ?; split; [congruence | done] | by intros [_ ?]].
Qed.

Lemma lru_drop_keys (k : string) (l : list (string * bytes)) :
  Forall (λ e, e.1 ≠ k) (lru_drop k l).
Proof. apply Forall_forall. intros e [? _]%list_elem_of_filter. done. Qed.

Lemma since_touch_other (k : string) (o : Op) (rops : list Op) :
  touches k o = false → since_touch k (o :: rops) = S <$> since_touch k rops.
Proof. simpl. by intros ->. Qed.

Lemma since_touch_touched (k : string) (o : Op) (rops : list Op) :
  touches k o = true → since_touch k (o :: rops) = Some 0%nat.
Proof. simpl. by intros ->. Qed.

Lemma by_recency_untouched (o : Op) (rops : list Op) (l : list (string * bytes)) :
  Forall (λ e, touches e.1 o = false) l →
  by_recency rops l → by_recency (o :: rops) l.
Proof.
  induction l as [|e l IH]; [done|].
  intros [He Hl]%Forall_cons [(a & Ha & Hall) Hrec]. split; [|by apply IH].
  exists (S a). rewrite (since_touch_other _ _ _ He), Ha. split; [done|].
  rewrite Forall_forall in Hall, Hl. apply Forall_forall. intros e' Hin.
  destruct (Hall e' Hin) as (b & Hb & Hlt). exists (S b).
  rewrite (since_touch_other _ _ _ (Hl e' Hin)), Hb. split; [done | lia].
Qed.

Lemma by_recency_filter (P : string * bytes → Prop) `{!∀ e, Decision (P e)}
    (rops : list Op) (l : list (string * bytes)) :
  by_recency rops l → by_recency rops (filter P l).
Proof.
  induction l as [|e l IH]; [done|].
  intros [(a & Ha & Hall) Hrec]. rewrite filter_cons.
  destruct (decide (P e)); [|by apply IH].
  split; [|by apply IH]. exists a. split; [done|].
  rewrite Forall_forall in Hall. apply Forall_forall.
  intros e' [_ Hin]%list_elem_of_filter. by apply Hall.
Qed.

Lemma by_recency_removelast (rops : list Op) (l : list (string * bytes)) :
  by_recency rops l → by_recency rops (removelast l).
Proof.
  induction l as [|e l IH]; [done|].
  intros [(a & Ha & Hall) Hrec]. destruct l as [|e1 l]; [done|].
  change (removelast (e :: e1 :: l)) with (e :: removelast (e1 :: l)).
  split; [|by apply IH]. exists a. split; [done|].
  rewrite Forall_forall in Hall. apply Forall_forall. intros e' Hin.
  apply Hall. clear -Hin. revert e1 Hin.
  induction l as [|e2 l IHl]; intros e1 Hin; [by apply elem_of_nil in Hin|].
  change (removelast (e1 :: e2 :: l)) with (e1 :: removelast (e2 :: l)) in Hin.
  apply elem_of_cons in Hin as [->|Hin]; [left | right; by apply IHl].
Qed.

(** A touched key goes in front of entries of other keys. *)
Lemma by_recency_touch (k : string) (v : bytes) (o : Op) (rops : list Op)
    (l : list (string * bytes)) :
  touches k o = true →
  Forall (λ e, touches e.1 o = false) l →
  by_recency rops l → by_recency (o :: rops) ((k, v) :: l).
Proof.
  intros Hk Hl Hrec. split; [|by apply by_recency_untouched].
  exists 0%nat. rewrite (since_touch_touched _ _ _ Hk). split; [done|].
  clear Hk. induction l as [|e l IH]; [constructor|].
  apply Forall_cons in Hl as [He Hl]. destruct Hrec as [(a & Ha & _) Hrec].
  constructor; [|by apply IH].
  exists (S a). rewrite (since_touch_other _ _ _ He), Ha. split; [done | lia].
Qed.

#[local] Arguments by_recency : simpl never.

(** One call keeps the cache in the order of the touches. *)
Lemma LruDriver_step_by_recency (o : Op) (rops : list Op) (d : LruDriver) :
  by_recency rops (lru_List (lru_data d)) →
  by_recency (o :: rops) (lru_List (lru_data (Driver_step d o))).
Proof.
  intros Hrec. destruct d as [[sz l]]. simpl in Hrec.
  assert (∀ k, Forall (λ e : string * bytes, e.1 ≠ k) (lru_drop k l)) as Hdrop
    by (intros k; apply lru_drop_keys).
  destruct o as [k|k v|k]; simpl.
  - unfold LruDriver_Get, lru_Get. simpl.
    destruct (lru_find k l) as [v|] eqn:Hf; simpl.
    + apply by_recency_touch; [by apply bool_decide_eq_true | | by apply by_recency_filter].
      eapply Forall_impl; [apply Hdrop|]. intros e He. simpl.
      apply bool_decide_eq_false. congruence.
    + apply by_recency_untouched; [|done].
      apply lru_find_None in Hf. eapply Forall_impl; [exact Hf|].
      intros e He. simpl. apply bool_decide_eq_false. congruence.
  - unfold lru_Set. simpl. destruct (lru_find k l) as [v0|] eqn:Hf; simpl.
    + apply by_recency_touch; [by apply bool_decide_eq_true | | by apply by_recency_filter].
      eapply Forall_impl; [apply Hdrop|]. intros e He. simpl.
      apply bool_decide_eq_false. congruence.
    + assert (by_recency (OpSet k v :: rops) ((k, v) :: l)) as Hnew.
      { apply by_recency_touch; [by apply bool_decide_eq_true | | done].
        apply lru_find_None in Hf. eapply Forall_impl; [exact Hf|].
        intros e He. simpl. apply bool_decide_eq_false. congruence. }
      case_match; simpl lru_List; [|done].
      by apply (by_recency_removelast _ ((k, v) :: l)).
  - unfold lru_Del. simpl. apply by_recency_untouched.
    + by apply Forall_forall.
    + by apply by_recency_filter.
Qed.

Lemma Driver_run_snoc {D : Type} `{!Driver D} (ops : list Op) (o : Op) (d : D) :
  Driver_run (ops ++ [o]) d = Driver_step (Driver_run ops d) o.
Proof. unfold Driver_run. by rewrite foldl_app. Qed.

(** After any history on a new cache, the entries are in the order of
    their last touch in that history. *)
Lemma LruDriver_run_by_recency (size : Z) (ops : list Op) :
  by_recency (rev ops) (lru_List (lru_data (Driver_run ops (NewLruDriver size)))).
Proof.
  induction ops as [|o ops IH] using rev_ind; [done|].
  rewrite Driver_run_snoc, rev_unit. by apply LruDriver_step_by_recency.
Qed.

Lemma by_recency_last (rops : list Op) (rest : list (string * bytes))
    (e : string * bytes) :
  by_recency rops (rest ++ [e]) →
  ∃ a, since_touch e.1 rops = Some a ∧
       Forall (λ e', ∃ b, since_touch e'.1 rops = Some b ∧ (b < a)%nat) rest.
Proof.
  induction rest as [|e0 rest IH].
  - intros [(a & Ha & _) _]. exists a. split; [done | constructor].
  - intros [(a0 & Ha0 & Hall) Hrec]. destruct (IH Hrec) as (a & Ha & Hrest).
    exists a. split; [done|]. constructor; [|done].
    apply Forall_app in Hall as [_ Hlast]. apply Forall_cons in Hlast as [Hlast _].
    destruct Hlast as (b & Hb & Hlt). exists a0. split; [done|]. congruence.
Qed.

(** ** The capacity of the cache *)

Lemma length_removelast_cons {A : Type} (x : A) (l : list A) :
  length (removelast (x :: l)) = length l.
Proof.
  revert x. induction l as [|y l IH]; intros x; [done|].
  change (removelast (x :: y :: l)) with (x :: removelast (y :: l)).
  cbn [length]. by rewrite IH.
Qed.

Lemma LruDriver_step_length (o : Op) (d : LruDriver) :
  Z.of_nat (length (lru_List (lru_data d))) ≤ lru_Size (lru_data d) →
  Z.of_nat (length (lru_List (lru_data (Driver_step d o)))) ≤ lru_Size (lru_data d).
Proof.
  destruct d as [[sz l]]. simpl. intros Hlen.
  destruct o as [k|k v|k];
    cbn [Driver_step Driver_Get Driver_Set Driver_Del LruDriver_Driver].
  - unfold LruDriver_Get, lru_Get. simpl.
    destruct (lru_find k l) as [v|] eqn:Hf; simpl; [|done].
    pose proof (lru_find_Some_drop_length _ _ _ Hf). lia.
  - unfold LruDriver_Set, lru_Set. cbn [fst lru_List lru_Size lru_data].
    destruct (lru_find k l) as [v0|] eqn:Hf.
    + pose proof (lru_find_Some_drop_length _ _ _ Hf). simpl. lia.
    + cbv zeta.
      destruct (Z.ltb_spec sz (Z.of_nat (length ((k, v) :: l)))) as [Hlt|Hge];
        cbn [lru_List].
      * rewrite length_removelast_cons. lia.
      * lia.
  - unfold lru_Del. simpl. pose proof (lru_drop_length k l). lia.
Qed.

Lemma LruDriver_run_Size (ops : list Op) (d : LruDriver) :
  lru_Size (lru_data (Driver_run ops d)) = lru_Size (lru_data d).
Proof.
  induction ops as [|o ops IH] using rev_ind; [done|].
  by rewrite Driver_run_snoc, LruDriver_step_Size.
Qed.

Lemma LruDriver_run_length (size : Z) (ops : list Op) :
  0 ≤ size →
  Z.of_nat (length (lru_List (lru_data (Driver_run ops (NewLruDriver size))))) ≤ size.
Proof.
  intros Hsz. induction ops as [|o ops IH] using rev_ind; [simpl; lia|].
  rewrite Driver_run_snoc.
  pose proof (LruDriver_run_Size ops (NewLruDriver size)) as HS. simpl in HS.
  etrans; [apply LruDriver_step_length|]; rewrite HS; [done | lia].
Qed.

(** C3: after any history of calls on a LruDriver made with a capacity
    [C > 0], at most [C] entries are resident.  When [C] entries are
    resident and [Set] writes a key that is not, one entry leaves: the new
    cache is the new entry followed by all the old ones but the last, and
    that last one, the victim, was touched (by [Get] or [Set]) longer ago
    than every other resident. *)
Theorem LruDriver_capacity (C : Z) (ops : list Op) :
  0 < C →
  let d := Driver_run ops (NewLruDriver C) in
  Z.of_nat (length (lru_List (lru_data d))) ≤ C ∧
  ∀ k v,
    Z.of_nat (length (lru_List (lru_data d))) = C →
    lru_find k (lru_List (lru_data d)) = None →
    ∃ rest victim val a,
      lru_List (lru_data d) = rest ++ [(victim, val)] ∧
      lru_List (lru_data (LruDriver_Set k v d).1) = (k, v) :: rest ∧
      Z.of_nat (length (lru_List (lru_data (LruDriver_Set k v d).1))) = C ∧
      lru_find victim (lru_List (lru_data (LruDriver_Set k v d).1)) = None ∧
      idle victim ops = Some a ∧
      Forall (λ e, ∃ b, idle e.1 ops = Some b ∧ (b < a)%nat) rest.
Proof.
  intros HC d. split; [apply LruDriver_run_length; lia|].
  intros k v Hfull Habs.
  pose proof (LruDriver_run_Size ops (NewLruDriver C)) as HS.
  pose proof (LruDriver_run_by_recency C ops) as Hrec.
  fold d in HS, Hrec. simpl in HS.
  destruct d as [[sz l]]. simpl in *. subst sz.
  destruct (exists_last (l:=l)) as (rest & [victim val] & ->).
  { intros ->. simpl in Hfull. lia. }
  destruct (by_recency_last _ _ _ Hrec) as (a & Ha & Hrest).
  assert (lru_Set k v (mkCache C (rest ++ [(victim, val)]))
          = mkCache C ((k, v) :: rest)) as Hset.
  { unfold lru_Set. simpl lru_List. rewrite Habs. cbv zeta.
    simpl lru_Size. destruct (Z.ltb_spec C (Z.of_nat (length ((k, v) :: rest ++ [(victim, val)]))))
      as [_|Hge]; [|simpl length in Hge; lia].
    by rewrite app_comm_cons, removelast_last. }
  exists rest, victim, val, a. rewrite Hset. simpl lru_List.
  split; [done|]. split; [done|].
  split. { rewrite length_app in Hfull. simpl in *. lia. }
  split; [|done].
  apply lru_find_None. apply lru_find_None in Habs.
  apply Forall_app in Habs as [_ Hk]. apply Forall_cons in Hk as [Hk _].
  constructor; [simpl in *; congruence|].
  eapply Forall_impl; [exact Hrest|]. intros e (b & Hb & Hlt) Heq.
  rewrite Heq in Hb. simpl in Ha. rewrite Ha in Hb. injection Hb as ->. lia.
Qed.

Lemma LruDriver_capacity_witness :
  let d := Driver_run [OpSet "a" []; OpSet "b" []; OpGet "a"] (NewLruDriver 2) in
  lru_List (lru_data d) = [("a", []); ("b", [])] ∧
  lru_List (lru_data (LruDriver_Set "c" [] d).1) = [("c", []); ("a", [])] ∧
  idle "b" [OpSet "a" []; OpSet "b" []; OpGet "a"] = Some 1%nat ∧
  idle "a" [OpSet "a" []; OpSet "b" []; OpGet "a"] = Some 0%nat.
Proof.
  destruct (LruDriver_capacity 2 [OpSet "a" []; OpSet "b" []; OpGet "a"])
    as [_ Hevict]; [lia|].
  destruct (Hevict "c" [] eq_refl eq_refl)
    as (rest & victim & val & a & Hl & Hset & _).
  split; [reflexivity|]. split; [|split; reflexivity].
  rewrite Hset. f_equal.
  change ([("a", []); ("b", [])] = rest ++ [(victim, val)]) in Hl.
  change ([("a", []:bytes)]) with (removelast [("a", []:bytes); ("b", [])]).
  rewrite Hl. by rewrite removelast_last.
Defined.


(** * More of the package *)

(** ** Histories *)

Lemma Driver_call_step {D : Type} `{!Driver D} (d : D) (o : Op) :
  (Driver_call d o).1 = Driver_step d o.
Proof.
  destruct o as [k|k v|k]; simpl; [done| |].
  - by destruct (Driver_Set k v d).
  - by destruct (Driver_Del k d).
Qed.

Lemma last_write_snoc (k : string) (ops : list Op) (o : Op) :
  last_write k (ops ++ [o]) = written k (last_write k ops) o.
Proof. unfold last_write. by rewrite foldl_app. Qed.

(** ** MemDriver *)

(** X1: a value set in a MemDriver is the value got, whatever the store
    held, and the other keys answer as before. *)
Theorem MemDriver_Set_Get (k : string) (v : bytes) (d : MemDriver) :
  MemDriver_Get k (MemDriver_Set k v d).1 = ((MemDriver_Set k v d).1, (v, None)) ∧
  ∀ k', k ≠ k' →
    (MemDriver_Get k' (MemDriver_Set k v d).1).2 = (MemDriver_Get k' d).2.
Proof.
  unfold MemDriver_Get, MemDriver_Set. simpl. split.
  - by rewrite lookup_insert_eq.
  - intros k' Hne. rewrite lookup_insert_ne by done.
    by destruct (mem_data d !! k').
Qed.

Lemma MemDriver_Set_Get_witness :
  (MemDriver_Get "b"
     (MemDriver_Set "a" [] {| mem_data := {[ "b" := String.list_byte_of_string "v" ]} |}).1).2
  = (String.list_byte_of_string "v", None).
Proof.
  destruct (MemDriver_Set_Get "a" []
              {| mem_data := {[ "b" := String.list_byte_of_string "v" ]} |})
    as [_ Hother].
  rewrite (Hother "b"); [reflexivity | discriminate].
Defined.

(** X2: after [Del] of a key a MemDriver answers [os.ErrNotExist] for it,
    and the other keys answer as before. *)
Theorem MemDriver_Del_Get (k : string) (d : MemDriver) :
  MemDriver_Get k (MemDriver_Del k d).1
    = ((MemDriver_Del k d).1, ([], Some ErrNotExist)) ∧
  ∀ k', k ≠ k' →
    (MemDriver_Get k' (MemDriver_Del k d).1).2 = (MemDriver_Get k' d).2.
Proof.
  unfold MemDriver_Get, MemDriver_Del. simpl. split.
  - by rewrite lookup_delete_eq.
  - intros k' Hne. rewrite lookup_delete_ne by done.
    by destruct (mem_data d !! k').
Qed.

Lemma MemDriver_Del_Get_witness :
  (MemDriver_Get "b"
     (MemDriver_Del "a" {| mem_data := {[ "b" := String.list_byte_of_string "v" ]} |}).1).2
  = (String.list_byte_of_string "v", None).
Proof.
  destruct (MemDriver_Del_Get "a"
              {| mem_data := {[ "b" := String.list_byte_of_string "v" ]} |})
    as [_ Hother].
  rewrite (Hother "b"); [reflexivity | discriminate].
Defined.

Lemma MemDriver_run_lookup (ops : list Op) (k : string) :
  mem_data (Driver_run ops NewMemDriver) !! k = last_write k ops.
Proof.
  induction ops as [|o ops IH] using rev_ind; [done|].
  rewrite Driver_run_snoc, last_write_snoc, <- IH.
  destruct o as [k'|k' v|k']; simpl.
  - unfold MemDriver_Get. by destruct (mem_data _ !! k').
  - destruct (decide (k' = k)) as [->|Hne];
      [by rewrite lookup_insert_eq | by rewrite lookup_insert_ne].
  - destruct (decide (k' = k)) as [->|Hne];
      [by rewrite lookup_delete_eq | by rewrite lookup_delete_ne].
Qed.

(** X3: after any history on a new MemDriver, [Get(k)] returns the value
    of the last [Set(k, _)] when no [Del(k)] came after it, and
    [os.ErrNotExist] otherwise; it leaves the store as it is. *)
Theorem MemDriver_Get_last_write (ops : list Op) (k : string) :
  MemDriver_Get k (Driver_run ops NewMemDriver)
  = (Driver_run ops NewMemDriver,
     match last_write k ops with
     | Some v => (v, None)
     | None => ([], Some ErrNotExist)
     end).
Proof.
  unfold MemDriver_Get. rewrite MemDriver_run_lookup.
  by destruct (last_write k ops).
Qed.

(** ** LruDriver *)

Lemma lru_find_removelast (k : string) (v : bytes) (l : list (string * bytes)) :
  lru_find k (removelast l) = Some v → lru_find k l = Some v.
Proof.
  induction l as [|[k0 v0] l IH]; [done|].
  destruct l as [|e l]; [done|].
  change (removelast ((k0, v0) :: e :: l)) with ((k0, v0) :: removelast (e :: l)).
  cbn [lru_find]. destruct (decide (k = k0)); [done|]. apply IH.
Qed.

(** What the cache holds after [Set(k, v)] was there before, or is the
    entry written. *)
Lemma lru_Set_find_inv (k k' : string) (v v' : bytes) (c : lru_Cache) :
  lru_find k' (lru_List (lru_Set k v c)) = Some v' →
  (k' = k ∧ v' = v) ∨ (k' ≠ k ∧ lru_find k' (lru_List c) = Some v').
Proof.
  assert (lru_find k' ((k, v) :: lru_List c) = Some v' →
          (k' = k ∧ v' = v) ∨ (k' ≠ k ∧ lru_find k' (lru_List c) = Some v')) as Hcons.
  { cbn [lru_find]. destruct (decide (k' = k)) as [->|Hne];
      [intros [= ->]; by left | intros ?; by right]. }
  unfold lru_Set. destruct (lru_find k (lru_List c)); cbn [lru_List].
  - cbn [lru_find]. destruct (decide (k' = k)) as [->|Hne]; [intros [= ->]; by left|].
    rewrite lru_find_drop_ne by done. intros ?; by right.
  - cbv zeta. case_match; cbn [lru_List]; [|done].
    intros Hf%lru_find_removelast. by apply Hcons.
Qed.

Lemma lru_Get_find (k k' : string) (c : lru_Cache) :
  lru_find k' (lru_List (lru_Get k c).1) = lru_find k' (lru_List c).
Proof.
  unfold lru_Get. destruct (lru_find k (lru_List c)) as [v|] eqn:Hf; [|done].
  cbn [fst lru_List lru_find]. destruct (decide (k' = k)) as [->|Hne]; [done|].
  by apply lru_find_drop_ne.
Qed.

Lemma LruDriver_Get_data (k : string) (d : LruDriver) :
  lru_data (LruDriver_Get k d).1 = (lru_Get k (lru_data d)).1.
Proof. unfold LruDriver_Get. by destruct (lru_Get k (lru_data d)) as [c [v|]]. Qed.

Lemma LruDriver_run_find (size : Z) (ops : list Op) (k : string) (v : bytes) :
  lru_find k (lru_List (lru_data (Driver_run ops (NewLruDriver size)))) = Some v →
  last_write k ops = Some v.
Proof.
  revert v. induction ops as [|o ops IH] using rev_ind; intros v; [done|].
  rewrite Driver_run_snoc, last_write_snoc.
  set (d := Driver_run ops (NewLruDriver size)) in *.
  destruct o as [k0|k0 v0|k0]; cbn [Driver_step Driver_Get Driver_Set Driver_Del
                                     LruDriver_Driver written].
  - rewrite LruDriver_Get_data, lru_Get_find. apply IH.
  - cbn [LruDriver_Set fst lru_data]. intros [[-> ->]|[Hne Hf]]%lru_Set_find_inv.
    + by rewrite decide_True.
    + rewrite decide_False by done. by apply IH.
  - cbn [LruDriver_Del fst lru_data lru_Del lru_List].
    destruct (decide (k0 = k)) as [->|Hne]; [by rewrite lru_find_drop_eq|].
    rewrite lru_find_drop_ne by done. apply IH.
Qed.

(** X4: a LruDriver never answers with an old value: after any history on
    a new driver of any size, when [Get(k)] succeeds, what it returns is the
    value of the last [Set(k, _)], and no [Del(k)] came after that. *)
Theorem LruDriver_Get_last_write (size : Z) (ops : list Op) (k : string)
    (d' : LruDriver) (v : bytes) :
  LruDriver_Get k (Driver_run ops (NewLruDriver size)) = (d', (v, None)) →
  last_write k ops = Some v.
Proof.
  intros Hget. apply (LruDriver_run_find size).
  unfold LruDriver_Get, lru_Get in Hget.
  destruct (lru_find k _) as [v1|]; [|done]. by injection Hget as _ ->.
Qed.

Lemma LruDriver_Get_last_write_witness :
  let ops := [OpSet "a" [Byte.x01]; OpSet "b" []; OpSet "a" [Byte.x02]; OpDel "b"] in
  (LruDriver_Get "a" (Driver_run ops (NewLruDriver 2))).2 = ([Byte.x02], None) ∧
  last_write "a" ops = Some [Byte.x02].
Proof.
  split; [reflexivity|].
  eapply (LruDriver_Get_last_write 2). reflexivity.
Defined.

(** X5: after [Del] of a key a LruDriver answers [os.ErrNotExist] for it,
    whatever it held; the values of the other keys are as before. *)
Theorem LruDriver_Del_Get (k : string) (d : LruDriver) :
  LruDriver_Get k (LruDriver_Del k d).1
    = ((LruDriver_Del k d).1, ([], Some ErrNotExist)) ∧
  ∀ k', k ≠ k' →
    lru_find k' (lru_List (lru_data (LruDriver_Del k d).1))
    = lru_find k' (lru_List (lru_data d)).
Proof.
  split.
  - apply LruDriver_Get_miss. apply lru_find_drop_eq.
  - intros k' Hne. by apply lru_find_drop_ne.
Qed.

Lemma LruDriver_Del_Get_witness :
  let d := Driver_run [OpSet "a" []; OpSet "b" [Byte.x01]] (NewLruDriver 2) in
  lru_find "b" (lru_List (lru_data (LruDriver_Del "a" d).1)) = Some [Byte.x01].
Proof.
  intros d. destruct (LruDriver_Del_Get "a" d) as [_ Hother].
  rewrite (Hother "b"); [reflexivity | discriminate].
Defined.

(** X6: [Get] on a LruDriver changes no value and evicts nothing: every key
    is resident after it exactly when it was before, with the same value, and
    the cache has no more entries than before. *)
Theorem LruDriver_Get_keeps (k k' : string) (d : LruDriver) :
  lru_find k' (lru_List (lru_data (LruDriver_Get k d).1))
    = lru_find k' (lru_List (lru_data d)) ∧
  (length (lru_List (lru_data (LruDriver_Get k d).1))
   ≤ length (lru_List (lru_data d)))%nat.
Proof.
  rewrite LruDriver_Get_data. split; [apply lru_Get_find|].
  unfold lru_Get. destruct (lru_find k _) as [v|] eqn:Hf; [|done].
  cbn [fst lru_List length]. pose proof (lru_find_Some_drop_length _ _ _ Hf). lia.
Qed.

(** ** MapDriver *)

(** X9: [Del(k)] leaves nothing of [k] in the cache, whether the backend
    delete worked or not: the [Get(k)] that follows is answered by the
    backend, with its value on success and with its error (next to nil
    bytes) otherwise. *)
Theorem MapDriver_Del_Get {Doc : Type} `{!Driver Doc} (k : string)
    (s : MapDriver Doc LruDriver) :
  (MapDriver_Get k (MapDriver_Del k s).1).2
  = match (Driver_Get k (doc (MapDriver_Del k s).1)).2 with
    | (buf, None) => (buf, None)
    | (_, Some e) => ([], Some e)
    end.
Proof.
  rewrite MapDriver_Del_eq. cbn [fst doc].
  set (d1 := (Driver_Del k (doc s)).1).
  unfold MapDriver_Get. cbn [lru doc].
  change (@Driver_Get LruDriver _) with LruDriver_Get.
  rewrite (LruDriver_Get_miss k (LruDriver_Del k (lru s)).1)
    by apply lru_find_drop_eq.
  by destruct (Driver_Get k d1) as [d2 [buf [e|]]].
Qed.

Lemma MapDriver_step_length {Doc : Type} `{!Driver Doc}
    (s : MapDriver Doc LruDriver) (o : Op) :
  Z.of_nat (length (lru_List (lru_data (lru s)))) ≤ lru_Size (lru_data (lru s)) →
  Z.of_nat (length (lru_List (lru_data (lru (Driver_step s o)))))
  ≤ lru_Size (lru_data (lru s)).
Proof.
  intros Hlen. destruct o as [k|k v|k]; cbn [Driver_step Driver_Get Driver_Set
                                              Driver_Del MapDriver_Driver].
  - pose proof (LruDriver_step_length (OpGet k) (lru s) Hlen) as H1.
    pose proof (LruDriver_step_Size (lru s) (OpGet k)) as HS.
    cbn [Driver_step Driver_Get LruDriver_Driver] in H1, HS.
    unfold MapDriver_Get. change (@Driver_Get LruDriver _) with LruDriver_Get.
    destruct (LruDriver_Get k (lru s)) as [l1 [b0 [e0|]]]; cbn [fst] in *; [|done].
    destruct (Driver_Get k (doc s)) as [d1 [buf [e|]]]; [done|].
    cbn [Driver_Set LruDriver_Driver]. cbn [LruDriver_Set fst lru].
    rewrite <- HS in H1 |- *.
    apply (LruDriver_step_length (OpSet k buf) l1 H1).
  - rewrite MapDriver_Set_eq. cbn [fst lru].
    apply (LruDriver_step_length (OpSet k v) (lru s) Hlen).
  - rewrite MapDriver_Del_eq. cbn [fst lru].
    apply (LruDriver_step_length (OpDel k) (lru s) Hlen).
Qed.

(** X10: the cache of a store made by [NewMapDriver] never holds more than
    1024 entries, whatever is called on the store. *)
Theorem NewMapDriver_cache_bound {fs : Type} `{!OS fs} (r : string) (w : fs)
    (s0 : MapDriver (DocDriver fs) LruDriver) (ops : list Op) :
  NewMapDriver r w = Some s0 →
  (length (lru_List (lru_data (lru (Driver_run ops s0)))) ≤ 1024)%nat.
Proof.
  intros Hnew.
  assert (Z.of_nat (length (lru_List (lru_data (lru (Driver_run ops s0))))) ≤ 1024);
    [|lia].
  induction ops as [|o ops IH] using rev_ind.
  - unfold NewMapDriver in Hnew. destruct (NewDocDriver r w); [|done].
    injection Hnew as <-. simpl. lia.
  - rewrite Driver_run_snoc.
    pose proof (NewMapDriver_run_Size r w s0 ops Hnew) as HS.
    rewrite <- HS. apply MapDriver_step_length. by rewrite HS.
Qed.

Lemma NewMapDriver_cache_bound_witness :
  (length (lru_List (lru_data (lru
     (Driver_run [OpSet "a" []; OpGet "b"; OpDel "a"] store_rw)))) ≤ 1024)%nat.
Proof. apply (NewMapDriver_cache_bound "db" disk_rw store_rw). reflexivity. Defined.

(** *** The cache in front of a writable directory *)

Section MapDriver_on_Disk.
(** Any implementation of [os] and [path] whose files are those of [Disk];
    [path.Join] is left open. *)
Context {HOS : OS Disk}.
Hypothesis HRead : os_ReadFile (OS:=HOS) = Disk_ReadFile.
Hypothesis HWrite : os_WriteFile (OS:=HOS) = Disk_WriteFile.
Hypothesis HRemove : os_Remove (OS:=HOS) = Disk_Remove.

Lemma DocDriver_Disk_Get (k : string) (d : DocDriver Disk) :
  DocDriver_Get (OS0:=HOS) k d
  = (d, match files (disk d) !! path_Join (OS:=HOS) (root d) k with
        | Some v => (v, None)
        | None => ([], Some (PathError "open" (path_Join (OS:=HOS) (root d) k) ENOENT))
        end).
Proof.
  destruct d as [r w]. unfold DocDriver_Get. rewrite HRead. cbn [root disk].
  unfold Disk_ReadFile. by destruct (files w !! _).
Qed.

Lemma DocDriver_Disk_Set (k : string) (v : bytes) (d : DocDriver Disk) :
  writable (disk d) = true →
  DocDriver_Set (OS0:=HOS) k v d
  = (mkDocDriver (root d)
       (mkDisk (<[path_Join (OS:=HOS) (root d) k := v]> (files (disk d))) true), None).
Proof.
  intros Hw. unfold DocDriver_Set. rewrite HWrite.
  unfold Disk_WriteFile. by rewrite Hw.
Qed.

Lemma DocDriver_Disk_Del (k : string) (d : DocDriver Disk) :
  writable (disk d) = true →
  DocDriver_Del (OS0:=HOS) k d
  = match files (disk d) !! path_Join (OS:=HOS) (root d) k with
    | Some _ =>
        (mkDocDriver (root d)
           (mkDisk (delete (path_Join (OS:=HOS) (root d) k) (files (disk d))) true),
         None)
    | None => (d, Some (PathError "remove" (path_Join (OS:=HOS) (root d) k) ENOENT))
    end.
Proof.
  intros Hw. destruct d as [r w]. unfold DocDriver_Del. rewrite HRemove.
  cbn [root disk] in *. unfold Disk_Remove.
  rewrite Hw. by destruct (files w !! _).
Qed.

(** One call on a coherent store, with a key that shares its file with no
    other key of [K]: the answer and the files are those of the DocDriver
    alone, and the store stays coherent. *)
Lemma MapDriver_coherent_call (K : string → Prop)
    (s : MapDriver (DocDriver Disk) LruDriver) (o : Op) :
  (∀ k', K k' →
     path_Join (OS:=HOS) (root (doc s)) k' = path_Join (OS:=HOS) (root (doc s)) (Op_key o) →
     k' = Op_key o) →
  K (Op_key o) →
  MapDriver_coherent K s →
  (Driver_call s o).2 = (Driver_call (doc s) o).2 ∧
  doc (Driver_call s o).1 = (Driver_call (doc s) o).1 ∧
  root (doc (Driver_call s o).1) = root (doc s) ∧
  MapDriver_coherent K (Driver_call s o).1.
Proof.
  intros Hinj HK [Hw Hco]. destruct o as [k|k v|k];
    cbn [Op_key] in Hinj, HK;
    cbn [Driver_call Driver_Get Driver_Set Driver_Del MapDriver_Driver
         DocDriver_Driver].
  - rewrite DocDriver_Disk_Get. cbn [fst snd].
    unfold MapDriver_Get. change (@Driver_Get LruDriver _) with LruDriver_Get.
    change (@Driver_Get (DocDriver Disk) _) with (@DocDriver_Get Disk HOS).
    destruct (lru_find k (lru_List (lru_data (lru s)))) as [v|] eqn:Hf.
    + rewrite (LruDriver_Get_hit _ _ _ Hf). destruct (Hco _ _ Hf) as [_ ->].
      cbn [fst snd doc].
      split; [done|]. split; [done|]. split; [done|]. split; [done|].
      cbn [lru doc lru_data lru_List].
      intros k' v'. cbn [lru_find].
      destruct (decide (k' = k)) as [->|Hne]; [intros [= <-]; by apply Hco|].
      rewrite lru_find_drop_ne by done. apply Hco.
    + rewrite (LruDriver_Get_miss _ _ Hf), DocDriver_Disk_Get.
      destruct (files (disk (doc s)) !! path_Join (root (doc s)) k) as [buf|] eqn:Hfile.
      * cbn [Driver_Set LruDriver_Driver LruDriver_Set fst snd doc].
        split; [done|]. split; [done|]. split; [done|]. split; [done|].
        cbn [lru doc lru_data].
        intros k' v' [[-> ->]|[Hne Hf']]%lru_Set_find_inv; [done | by apply Hco].
      * cbn [fst snd doc]. split; [done|]. split; [done|]. split; [done|]. by split.
  - rewrite MapDriver_Set_eq.
    change (@Driver_Set (DocDriver Disk) _) with (@DocDriver_Set Disk HOS).
    rewrite (DocDriver_Disk_Set _ _ _ Hw). cbn [fst snd doc lru root].
    split; [done|]. split; [done|]. split; [done|]. split; [done|].
    cbn [lru doc disk root files lru_data].
    intros k' v' [[-> ->]|[Hne Hf']]%lru_Set_find_inv.
    + split; [done | apply lookup_insert_eq].
    + destruct (Hco _ _ Hf') as [HK' Hfile]. split; [done|].
      rewrite lookup_insert_ne; [done|].
      intros Heq. symmetry in Heq. by apply Hinj in Heq.
  - rewrite MapDriver_Del_eq.
    change (@Driver_Del (DocDriver Disk) _) with (@DocDriver_Del Disk HOS).
    rewrite (DocDriver_Disk_Del _ _ Hw).
    assert (∀ k' v', lru_find k' (lru_drop k (lru_List (lru_data (lru s)))) = Some v' →
              k' ≠ k ∧ lru_find k' (lru_List (lru_data (lru s))) = Some v') as Hdrop.
    { intros k' v' Hf. destruct (decide (k = k')) as [->|Hne].
      - by rewrite lru_find_drop_eq in Hf.
      - rewrite lru_find_drop_ne in Hf by done. split; [congruence | done]. }
    destruct (files (disk (doc s)) !! path_Join (root (doc s)) k) eqn:Hfile;
      cbn [fst snd doc lru root];
      (split; [done|]); (split; [done|]); (split; [done|]); (split; [done|]);
      cbn [lru doc disk root files lru_data LruDriver_Del fst lru_Del lru_List];
      intros k' v' [Hne Hf']%Hdrop; destruct (Hco _ _ Hf') as [HK' Hfile'];
      (split; [done|]).
    + rewrite lookup_delete_ne; [done|].
      intros Heq. symmetry in Heq. by apply Hinj in Heq.
    + done.
Qed.

Lemma MapDriver_coherent_trace (K : string → Prop) (ops : list Op)
    (s : MapDriver (DocDriver Disk) LruDriver) :
  (∀ k k', K k → K k' →
     path_Join (OS:=HOS) (root (doc s)) k = path_Join (OS:=HOS) (root (doc s)) k' →
     k = k') →
  Forall (λ o, K (Op_key o)) ops →
  MapDriver_coherent K s →
  Driver_trace ops s = Driver_trace ops (doc s) ∧
  doc (Driver_run ops s) = Driver_run ops (doc s) ∧
  MapDriver_coherent K (Driver_run ops s).
Proof.
  revert s. induction ops as [|o ops IH]; intros s Hinj HK Hco; [done|].
  apply Forall_cons in HK as [Ho HK].
  destruct (MapDriver_coherent_call K s o) as (Hres & Hdoc & Hroot & Hco1);
    [intros k' Hk'; by apply Hinj | done | done |].
  change (Driver_run (o :: ops) s) with (Driver_run ops (Driver_step s o)).
  change (Driver_run (o :: ops) (doc s)) with (Driver_run ops (Driver_step (doc s) o)).
  rewrite <- !Driver_call_step. cbn [Driver_trace].
  destruct (Driver_call s o) as [s1 r1], (Driver_call (doc s) o) as [d1 r2].
  cbn [fst snd] in *. subst r2 d1.
  destruct (IH s1) as (Htr & Hrun & Hco2); [by rewrite Hroot | done | done |].
  by rewrite Htr.
Qed.

(** X11: in front of a writable directory the cache cannot be seen, as long
    as no two keys that are used name the same file.  On a store that
    [NewMapDriver] made, a history of calls whose keys [path.Join] sends to
    different files gets the same results, and leaves the same files, as the
    same history on the DocDriver alone; and every value in the cache is the
    content of its file. *)
Theorem MapDriver_cache_transparent (r : string) (w : Disk)
    (s0 : MapDriver (DocDriver Disk) LruDriver) (ops : list Op) :
  NewMapDriver (OS0:=HOS) r w = Some s0 →
  writable (disk (doc s0)) = true →
  (∀ k k', k ∈ Op_key <$> ops → k' ∈ Op_key <$> ops →
     path_Join (OS:=HOS) r k = path_Join (OS:=HOS) r k' → k = k') →
  Driver_trace ops s0 = Driver_trace ops (doc s0) ∧
  doc (Driver_run ops s0) = Driver_run ops (doc s0) ∧
  MapDriver_coherent (λ k, k ∈ Op_key <$> ops) (Driver_run ops s0).
Proof.
  intros Hnew Hw Hinj.
  unfold NewMapDriver, NewDocDriver in Hnew.
  destruct (os_MkdirAll r w) as [w1 [e|]]; [done|]. injection Hnew as <-.
  apply MapDriver_coherent_trace; [done | | by split].
  apply Forall_forall. intros o Ho. apply list_elem_of_fmap. by exists o.
Qed.
(** X12: two keys that name the same file are two entries for the cache.
    After [Set(k1, v1)] and [Set(k2, v2)] with such keys the file holds [v2],
    which is what the DocDriver alone returns for [k1], but [Get(k1)] on the
    layered store still returns [v1] from the cache. *)
Theorem MapDriver_alias_stale (r : string) (w : Disk)
    (s0 : MapDriver (DocDriver Disk) LruDriver) (k1 k2 : string) (v1 v2 : bytes) :
  NewMapDriver (OS0:=HOS) r w = Some s0 →
  writable (disk (doc s0)) = true →
  k1 ≠ k2 →
  path_Join (OS:=HOS) r k1 = path_Join (OS:=HOS) r k2 →
  Driver_trace [OpSet k1 v1; OpSet k2 v2; OpGet k1] s0
    = [([], None); ([], None); (v1, None)] ∧
  Driver_trace [OpSet k1 v1; OpSet k2 v2; OpGet k1] (doc s0)
    = [([], None); ([], None); (v2, None)].
Proof.
  intros Hnew Hw Hne Halias.
  unfold NewMapDriver, NewDocDriver in Hnew.
  destruct (os_MkdirAll r w) as [w1 [e|]]; [done|]. injection Hnew as <-.
  cbn [doc disk] in Hw. split.
  - cbn [Driver_trace Driver_call Driver_Get Driver_Set MapDriver_Driver].
    rewrite !MapDriver_Set_eq.
    change (@Driver_Set (DocDriver Disk) _) with (@DocDriver_Set Disk HOS).
    cbn [doc lru fst snd].
    rewrite (DocDriver_Disk_Set k1 v1 (mkDocDriver r w1) Hw). cbn [fst snd root disk files].
    rewrite (DocDriver_Disk_Set k2 v2) by done. cbn [fst snd root disk files].
    unfold MapDriver_Get. cbn [lru].
    change (@Driver_Get LruDriver _) with LruDriver_Get.
    erewrite (LruDriver_Get_hit k1 v1); [done|].
    cbn [LruDriver_Set fst lru_data].
    rewrite lru_Set_find_ne; [| done |].
    + apply lru_Set_find. simpl. lia.
    + unfold NewLruDriver, lru_New, lru_Set. simpl. lia.
  - cbn [Driver_trace Driver_call Driver_Get Driver_Set DocDriver_Driver doc].
    rewrite (DocDriver_Disk_Set k1 v1 (mkDocDriver r w1) Hw). cbn [fst snd root disk files].
    rewrite (DocDriver_Disk_Set k2 v2) by done. cbn [fst snd root disk files].
    rewrite DocDriver_Disk_Get. cbn [root disk files].
    by rewrite Halias, lookup_insert_eq.
Qed.
End MapDriver_on_Disk.

Lemma Disk_path_Join_inj (r k k' : string) :
  path_Join (OS:=Disk_OS) r k = path_Join (OS:=Disk_OS) r k' → k = k'.
Proof.
  cbn [path_Join Disk_OS]. intros H.
  apply (String.app_inj r) in H. by apply (String.app_inj "/") in H.
Qed.

Lemma MapDriver_cache_transparent_witness :
  let ops := [OpGet "a"; OpSet "a" [Byte.x01]; OpGet "a"; OpDel "a"; OpDel "a"; OpGet "a"] in
  Driver_trace ops store_rw = Driver_trace ops (doc store_rw) ∧
  Driver_trace ops store_rw
  = [([], Some (PathError "open" "db/a" ENOENT)); ([], None); ([Byte.x01], None);
     ([], None); ([], Some (PathError "remove" "db/a" ENOENT));
     ([], Some (PathError "open" "db/a" ENOENT))].
Proof.
  intros ops. split; [|reflexivity].
  apply (MapDriver_cache_transparent (HOS:=Disk_OS) eq_refl eq_refl eq_refl
           "db" disk_rw store_rw ops); [reflexivity | reflexivity |].
  intros k k' _ _. apply Disk_path_Join_inj.
Defined.

Lemma MapDriver_alias_stale_witness :
  let s0 := mkMapDriver (mkDocDriver "db" disk_rw) (NewLruDriver 1024) in
  let ops := [OpSet "a" [Byte.x01]; OpSet "/a" [Byte.x02]; OpGet "a"] in
  NewMapDriver (OS0:=Disk_OS_trim) "db" disk_rw = Some s0 ∧
  path_Join (OS:=Disk_OS_trim) "db" "a" = path_Join (OS:=Disk_OS_trim) "db" "/a" ∧
  Driver_trace
    (Driver0:=MapDriver_Driver (Driver0:=DocDriver_Driver (OS0:=Disk_OS_trim)))
    ops s0 = [([], None); ([], None); ([Byte.x01], None)] ∧
  Driver_trace (Driver0:=DocDriver_Driver (OS0:=Disk_OS_trim)) ops (doc s0)
    = [([], None); ([], None); ([Byte.x02], None)].
Proof.
  intros s0 ops. split; [reflexivity|]. split; [reflexivity|].
  apply (MapDriver_alias_stale (HOS:=Disk_OS_trim) eq_refl eq_refl
           "db" disk_rw s0 "a" "/a" [Byte.x01] [Byte.x02]);
    [reflexivity | reflexivity | discriminate | reflexivity].
Defined.

(** ** Emerge *)

Lemma Emerge_call_unlocked {D : Type} `{!Driver D} (e : Emerge D) (o : Op) :
  locked (m e) = false →
  Emerge_call e o
  = Some (mkEmerge (Driver_call (driver e) o).1 (m e), (Driver_call (driver e) o).2).
Proof.
  intros Hm. destruct o as [k|k v|k]; cbn [Emerge_call Driver_call].
  - by apply Emerge_Get_unlocked.
  - rewrite (Emerge_Set_unlocked _ _ _ Hm). simpl.
    by destruct (Driver_Set k v (driver e)).
  - rewrite (Emerge_Del_unlocked _ _ Hm). simpl.
    by destruct (Driver_Del k (driver e)).
Qed.

Lemma Emerge_run_unlocked {D : Type} `{!Driver D} (ops : list Op) (e : Emerge D) :
  locked (m e) = false →
  Emerge_run ops e
  = Some (mkEmerge (Driver_run ops (driver e)) (m e), Driver_trace ops (driver e)).
Proof.
  revert e. induction ops as [|o ops IH]; intros e Hm.
  - by destruct e.
  - cbn [Emerge_run Driver_trace]. rewrite (Emerge_call_unlocked _ _ Hm).
    cbn [mbind option_bind]. rewrite IH by done. cbn [mbind option_bind driver m].
    change (Driver_run (o :: ops) (driver e))
      with (Driver_run ops (Driver_step (driver e) o)).
    rewrite <- Driver_call_step. by destruct (Driver_call (driver e) o).
Qed.

(** X13: a client made by [NewEmerge] adds nothing to its driver but the
    lock.  Any history of [Get], [Set] and [Del] through the client returns
    (no call waits for the mutex), gets the results the driver alone gives,
    leaves the driver in the state the driver alone reaches, and leaves the
    mutex free. *)
Theorem NewEmerge_run {D : Type} `{!Driver D} (ops : list Op) (d : D) :
  Emerge_run ops (NewEmerge d)
  = Some (NewEmerge (Driver_run ops d), Driver_trace ops d).
Proof. by apply (Emerge_run_unlocked ops (NewEmerge d)). Qed.

(** X14: through a memory client, what [SetEncode] stored is what
    [GetDecode] decodes: when [v] marshals to [b], [SetEncode(k, v)]
    succeeds and the [GetDecode(k, _)] that follows returns what
    [json.Unmarshal] makes of [b], and leaves the store as it is. *)
Theorem Emerge_Mem_SetEncode_GetDecode {V : Type} `{!Json V} (k : string)
    (v v0 : V) (b : bytes) (e : Emerge MemDriver) :
  locked (m e) = false →
  json_Marshal v = (b, None) →
  ∃ e1,
    Emerge_SetEncode k v e = Some (e1, None) ∧
    mem_data (driver e1) = <[k := b]> (mem_data (driver e)) ∧
    Emerge_GetDecode k v0 e1
    = Some (e1, (json_Unmarshal b v0).1, (json_Unmarshal b v0).2).
Proof.
  intros Hm Hb. exists (mkEmerge (MemDriver_Set k b (driver e)).1 (m e)).
  unfold Emerge_SetEncode. rewrite Hb, (Emerge_Set_unlocked _ _ _ Hm).
  split; [done|]. split; [done|].
  unfold Emerge_GetDecode. rewrite Emerge_Get_unlocked by done.
  cbn [driver m Driver_Get MemDriver_Driver].
  unfold MemDriver_Get, MemDriver_Set. cbn [fst mem_data].
  rewrite lookup_insert_eq. cbn [mbind option_bind fst snd].
  by destruct (json_Unmarshal b v0).
Qed.

Lemma Emerge_Mem_SetEncode_GetDecode_witness :
  ∃ e1,
    Emerge_SetEncode "k" (GoBool false) Mem = Some (e1, None) ∧
    Emerge_GetDecode "k" GoNil e1 = Some (e1, GoBool false, None).
Proof.
  assert (json_Marshal (GoBool false)
          = (String.list_byte_of_string "false", None)) as Hb by reflexivity.
  destruct (Emerge_Mem_SetEncode_GetDecode "k" (GoBool false) GoNil
              (String.list_byte_of_string "false") Mem eq_refl Hb)
    as (e1 & Hset & _ & Hget).
  exists e1. split; [exact Hset | exact Hget].
Defined.

(** ** The command *)

Section hand_properties.
Context {D : Type} `{!Driver D}.

(** What [hand] does on a client whose mutex is free, case by case. *)
Lemma hand_unlocked (r : Request) (w : ResponseWriter) (st : Server D) :
  locked (m (client st)) = false →
  ∃ st' w',
    hand w r st = Some (st', w') ∧
    locked (m (client st')) = false ∧
    ((EscapedPath r = "/" ∧ st' = st ∧
      w' = ResponseWriter_WriteHeader StatusBadRequest w) ∨
     (EscapedPath r ≠ "/" ∧
      ((∃ e, w' = hand_error e w) ∨
       (∃ b, w' = ResponseWriter_Write b w) ∨
       w' = w))).
Proof.
  intros Hm. unfold hand. destruct (decide (EscapedPath r = "/")) as [Hroot|Hroot].
  { exists st, (ResponseWriter_WriteHeader StatusBadRequest w). split; [done|].
    split; [done|]. by left. }
  destruct (decide (Method r = "GET")) as [_|_].
  { rewrite (Emerge_Get_unlocked _ _ Hm). cbn [mbind option_bind].
    destruct (Driver_Get (EscapedPath r) (driver (client st))) as [d1 [b [e|]]];
      cbn [fst snd]; eexists _, _; (split; [done|]); (split; [done|]); right;
      (split; [done|]); [left | right; left]; eauto. }
  destruct (decide (Method r = "PUT")) as [_|_].
  { destruct (Body r) as [b [e|]].
    { eexists _, _. split; [done|]. split; [done|]. right. split; [done|].
      left. eauto. }
    rewrite (Emerge_Set_unlocked _ _ _ Hm). cbn [mbind option_bind].
    destruct (Driver_Set (EscapedPath r) b (driver (client st))) as [d1 [e|]];
      cbn [fst snd]; eexists _, _; (split; [done|]); (split; [done|]); right;
      (split; [done|]); [left | right; right]; eauto. }
  destruct (decide (Method r = "DELETE")) as [_|_].
  { rewrite (Emerge_Del_unlocked _ _ Hm). cbn [mbind option_bind].
    destruct (Driver_Del (EscapedPath r) (driver (client st))) as [d1 [e|]];
      cbn [fst snd]; eexists _, _; (split; [done|]); (split; [done|]); right;
      (split; [done|]); [left | right; right]; eauto. }
  exists st, w. split; [done|]. split; [done|]. right. split; [done|]. by right; right.
Qed.

(** X15: [hand] answers every request when the mutex is free, and leaves
    it free.  The status sent is 400, 404 or 200, never another one, and it
    is 400 exactly for the path "/", which is refused before the client is
    called: the client and the log are untouched and the body is empty. *)
Theorem hand_status (r : Request) (st : Server D) :
  locked (m (client st)) = false →
  ∃ st' w',
    hand NewResponseWriter r st = Some (st', w') ∧
    locked (m (client st')) = false ∧
    (ResponseWriter_sent w' = 400 ∨ ResponseWriter_sent w' = 404 ∨
     ResponseWriter_sent w' = 200) ∧
    (ResponseWriter_sent w' = 400 ↔ EscapedPath r = "/") ∧
    (EscapedPath r = "/" → st' = st ∧ body w' = []).
Proof.
  intros Hm.
  destruct (hand_unlocked r NewResponseWriter st Hm)
    as (st' & w' & Hh & Hm' & Hcases).
  exists st', w'. split; [done|]. split; [done|].
  destruct Hcases as [(Hroot & -> & ->)|(Hroot & [[e ->]|[[b ->]| ->]])].
  - split; [by left|]. split; [done|]. done.
  - split; [right; by left|]. split; [|done]. split; [done|done].
  - split; [right; by right|]. split; [|done]. split; [done|done].
  - split; [right; by right|]. split; [|done]. split; [done|done].
Qed.

(** Requests served one after the other are all answered: no call
    waits for the mutex, there is one answer for each request, and the mutex
    is free at the end. *)
Theorem serve_answers (rs : list Request) (st : Server D) :
  locked (m (client st)) = false →
  ∃ st' ws,
    serve rs st = Some (st', ws) ∧
    length ws = length rs ∧
    locked (m (client st')) = false.
Proof.
  revert st. induction rs as [|r rs IH]; intros st Hm.
  - by exists st, [].
  - destruct (hand_unlocked r NewResponseWriter st Hm) as (st1 & w & Hh & Hm1 & _).
    destruct (IH st1 Hm1) as (st2 & ws & Hs & Hlen & Hm2).
    exists st2, ((ResponseWriter_sent w, body w) :: ws).
    cbn [serve]. rewrite Hh. cbn [mbind option_bind]. rewrite Hs.
    cbn [mbind option_bind]. split; [done|]. split; [simpl; by rewrite Hlen | done].
Qed.
End hand_properties.

Lemma hand_status_witness :
  ∃ st' w',
    hand NewResponseWriter (mkRequest "GET" "/k" ([], None)) (mkServer Mem [])
      = Some (st', w') ∧
    ResponseWriter_sent w' = 404 ∧
    body w' = String.list_byte_of_string "file does not exist".
Proof.
  destruct (hand_status (mkRequest "GET" "/k" ([], None)) (mkServer Mem []) eq_refl)
    as (st' & w' & Hh & _).
  exists st', w'. split; [exact Hh|].
  vm_compute in Hh. injection Hh as <- <-. split; reflexivity.
Defined.

Lemma serve_answers_witness :
  ∃ st' ws,
    serve [mkRequest "PUT" "/k" ([Byte.x01], None); mkRequest "GET" "/k" ([], None);
           mkRequest "GET" "/" ([], None)]
          (mkServer Mem []) = Some (st', ws) ∧
    ws = [(200, []); (200, [Byte.x01]); (400, [])].
Proof.
  destruct (serve_answers
              [mkRequest "PUT" "/k" ([Byte.x01], None); mkRequest "GET" "/k" ([], None);
               mkRequest "GET" "/" ([], None)]
              (mkServer Mem []) eq_refl)
    as (st' & ws & Hs & _).
  exists st', ws. split; [exact Hs|].
  vm_compute in Hs. by injection Hs as _ <-.
Defined.

Lemma MapDriver_Set_Get_hit {Doc : Type} `{!Driver Doc} (k : string) (v : bytes)
    (s : MapDriver Doc LruDriver) :
  0 < lru_Size (lru_data (lru s)) →
  (MapDriver_Get k (MapDriver_Set k v s).1).2 = (v, None).
Proof.
  intros Hsz. rewrite MapDriver_Set_eq. cbn [fst].
  pose proof (LruDriver_Set_Get k v (lru s) Hsz) as Hhit.
  unfold MapDriver_Get. cbn [lru].
  change (@Driver_Get LruDriver _) with LruDriver_Get.
  destruct (LruDriver_Get k (LruDriver_Set k v (lru s)).1) as [l1 [b0 err]].
  cbn [snd] in Hhit. by injection Hhit as -> ->.
Qed.

Lemma hand_PUT {D : Type} `{!Driver D} (w : ResponseWriter) (k : string)
    (b : bytes) (st : Server D) :
  locked (m (client st)) = false →
  k ≠ "/" →
  hand w (mkRequest "PUT" k (b, None)) st
  = Some (mkServer (mkEmerge (Driver_Set k b (driver (client st))).1 (m (client st)))
                   (logged st ++ [["set"; k; String.string_of_list_byte b]]),
          match (Driver_Set k b (driver (client st))).2 with
          | Some e => hand_error e w
          | None => w
          end).
Proof.
  intros Hm Hk. unfold hand. cbn [EscapedPath Method Body].
  rewrite (decide_False (P:=k = "/")) by done.
  rewrite (decide_False (P:="PUT" = "GET")) by discriminate.
  rewrite (decide_True (P:="PUT" = "PUT")) by done.
  rewrite (Emerge_Set_unlocked _ _ _ Hm). cbn [mbind option_bind].
  by destruct (Driver_Set k b (driver (client st))) as [d1 [e|]].
Qed.

Lemma hand_GET {D : Type} `{!Driver D} (w : ResponseWriter) (k : string)
    (rb : bytes * option error) (st : Server D) :
  locked (m (client st)) = false →
  k ≠ "/" →
  hand w (mkRequest "GET" k rb) st
  = Some (mkServer (mkEmerge (Driver_Get k (driver (client st))).1 (m (client st)))
                   (logged st),
          match (Driver_Get k (driver (client st))).2 with
          | (_, Some e) => hand_error e w
          | (b, None) => ResponseWriter_Write b w
          end).
Proof.
  intros Hm Hk. unfold hand. cbn [EscapedPath Method Body].
  rewrite (decide_False (P:=k = "/")) by done.
  rewrite (decide_True (P:="GET" = "GET")) by done.
  rewrite (Emerge_Get_unlocked _ _ Hm). cbn [mbind option_bind].
  by destruct (Driver_Get k (driver (client st))) as [d1 [b [e|]]].
Qed.

(** X16: over the layered store, a [PUT] of a readable body followed by a
    [GET] of the same path is answered 200 with exactly that body, also when
    the [PUT] itself was answered 404 because the backend write failed; the
    [PUT] is logged once. *)
Theorem hand_PUT_GET {fs : Type} `{!OS fs}
    (st : Server (MapDriver (DocDriver fs) LruDriver)) (k : string) (b : bytes)
    (rb : bytes * option error) :
  locked (m (client st)) = false →
  0 < lru_Size (lru_data (lru (driver (client st)))) →
  k ≠ "/" →
  ∃ st1 w1 st2 w2,
    hand NewResponseWriter (mkRequest "PUT" k (b, None)) st = Some (st1, w1) ∧
    hand NewResponseWriter (mkRequest "GET" k rb) st1 = Some (st2, w2) ∧
    ResponseWriter_sent w2 = 200 ∧
    body w2 = b ∧
    logged st2 = logged st ++ [["set"; k; String.string_of_list_byte b]].
Proof.
  intros Hm Hsz Hk.
  pose proof (MapDriver_Set_Get_hit k b (driver (client st)) Hsz) as Hhit.
  eexists _, _, _, _. split; [by apply hand_PUT|].
  split; [by apply hand_GET|]. cbn [client driver m logged].
  change (@Driver_Set (MapDriver (DocDriver fs) LruDriver) _)
    with (@MapDriver_Set (DocDriver fs) LruDriver _ _).
  change (@Driver_Get (MapDriver (DocDriver fs) LruDriver) _)
    with (@MapDriver_Get (DocDriver fs) LruDriver _ _).
  by rewrite Hhit.
Qed.

Lemma hand_PUT_GET_witness :
  ∃ st1 w1 st2 w2,
    hand NewResponseWriter (mkRequest "PUT" "/k" ([Byte.x01], None))
         (mkServer (NewEmerge store_ro) []) = Some (st1, w1) ∧
    ResponseWriter_sent w1 = 404 ∧
    hand NewResponseWriter (mkRequest "GET" "/k" ([], None)) st1 = Some (st2, w2) ∧
    ResponseWriter_sent w2 = 200 ∧
    body w2 = [Byte.x01].
Proof.
  destruct (hand_PUT_GET (mkServer (NewEmerge store_ro) []) "/k" [Byte.x01] ([], None))
    as (st1 & w1 & st2 & w2 & Hput & Hget & H200 & Hb & _);
    [reflexivity | simpl; lia | discriminate |].
  exists st1, w1, st2, w2. split; [exact Hput|].
  split; [|by split].
  vm_compute in Hput. by injection Hput as _ <-.
Defined.

(** X17: requests that never reach the client.  A method other than GET,
    PUT and DELETE is answered 200 with an empty body, and a PUT whose body
    cannot be read is answered 404 with the text of the read error; in both
    cases the client and the log are untouched and the mutex is not taken. *)
Theorem hand_not_served {D : Type} `{!Driver D} (r : Request) (st : Server D) :
  EscapedPath r ≠ "/" →
  (Method r ≠ "GET" → Method r ≠ "PUT" → Method r ≠ "DELETE" →
   hand NewResponseWriter r st = Some (st, NewResponseWriter) ∧
   ResponseWriter_sent NewResponseWriter = 200) ∧
  (∀ b e, Method r = "PUT" → Body r = (b, Some e) →
   hand NewResponseWriter r st
   = Some (st, mkResponseWriter (Some 404) (String.list_byte_of_string (error_Error e)))).
Proof.
  intros Hk. unfold hand. rewrite (decide_False (P:=EscapedPath r = "/")) by done.
  split.
  - intros Hg Hp Hd. by rewrite !decide_False by done.
  - intros b e Hp Hb. rewrite Hp, Hb.
    rewrite (decide_False (P:="PUT" = "GET")) by discriminate.
    by rewrite (decide_True (P:="PUT" = "PUT")) by done.
Qed.

Lemma hand_not_served_witness :
  hand NewResponseWriter (mkRequest "POST" "/k" ([Byte.x01], None)) (mkServer Mem [])
  = Some (mkServer Mem [], NewResponseWriter) ∧
  hand NewResponseWriter (mkRequest "PUT" "/k" ([], Some (ErrorString "unexpected EOF")))
       (mkServer Mem [])
  = Some (mkServer Mem [],
          mkResponseWriter (Some 404) (String.list_byte_of_string "unexpected EOF")).
Proof.
  split.
  - destruct (hand_not_served (mkRequest "POST" "/k" ([Byte.x01], None))
                (mkServer Mem [])) as [Hother _]; [discriminate|].
    apply Hother; discriminate.
  - destruct (hand_not_served
                (mkRequest "PUT" "/k" ([], Some (ErrorString "unexpected EOF")))
                (mkServer Mem [])) as [_ Hbody]; [discriminate|].
    apply (Hbody [] (ErrorString "unexpected EOF")); reflexivity.
Defined.

(** ** Construction *)

(** X18: [Map(root)] panics exactly when [os.MkdirAll(root)] fails.
    Otherwise the client has a free mutex, an empty cache of size 1024 and a
    DocDriver on [root], over the file system as [MkdirAll] left it. *)
Theorem Map_new {fs : Type} `{!OS fs} (r : string) (w : fs) :
  match os_MkdirAll r w with
  | (_, Some _) => Map r w = None
  | (w1, None) =>
      Map r w = Some (mkEmerge (mkMapDriver (mkDocDriver r w1)
                                            {| lru_data := mkCache 1024 [] |})
                               {| locked := false |})
  end.
Proof.
  unfold Map, NewMapDriver, NewDocDriver.
  by destruct (os_MkdirAll r w) as [w1 [e|]].
Qed.

(** ** What [Set] keeps in the cache *)

(** X7: [Set(k, v)] on a LruDriver evicts nothing when [k] is resident or
    the cache has room: every other key keeps its value. *)
Theorem LruDriver_Set_keeps (k k' : string) (v : bytes) (d : LruDriver) :
  is_Some (lru_find k (lru_List (lru_data d)))
  ∨ Z.of_nat (length (lru_List (lru_data d))) < lru_Size (lru_data d) →
  k ≠ k' →
  lru_find k' (lru_List (lru_data (LruDriver_Set k v d).1))
  = lru_find k' (lru_List (lru_data d)).
Proof.
  intros Hroom Hne. cbn [LruDriver_Set fst lru_data].
  destruct (lru_find k (lru_List (lru_data d))) as [v0|] eqn:Hf.
  - unfold lru_Set. rewrite Hf. cbn [lru_List lru_find].
    rewrite decide_False by done. by apply lru_find_drop_ne.
  - destruct Hroom as [[? [=]]|Hlt]. by apply lru_Set_find_ne.
Qed.

Lemma LruDriver_Set_keeps_witness :
  let d := Driver_run [OpSet "a" [Byte.x01]] (NewLruDriver 2) in
  lru_find "a" (lru_List (lru_data (LruDriver_Set "b" [] d).1)) = Some [Byte.x01].
Proof.
  intros d. rewrite (LruDriver_Set_keeps "b" "a" [] d);
    [reflexivity | right; simpl; lia | discriminate].
Defined.

(** ** One entry for each key *)

Lemma by_recency_NoDup (rops : list Op) (l : list (string * bytes)) :
  by_recency rops l → NoDup l.*1.
Proof.
  induction l as [|e l IH]; [constructor|].
  intros [(a & Ha & Hall) Hrec]. cbn [fmap list_fmap]. constructor; [|by apply IH].
  intros (e' & Heq & Hin)%list_elem_of_fmap.
  rewrite Forall_forall in Hall. destruct (Hall e' Hin) as (b & Hb & Hlt).
  rewrite <- Heq, Ha in Hb. injection Hb as ->. lia.
Qed.

(** X8: a LruDriver never holds two entries for one key: after any history
    on a new driver of any size, the keys in the cache are pairwise
    different. *)
Theorem LruDriver_keys_NoDup (size : Z) (ops : list Op) :
  NoDup (lru_List (lru_data (Driver_run ops (NewLruDriver size)))).*1.
Proof. apply (by_recency_NoDup (rev ops)). apply LruDriver_run_by_recency. Qed.
